(** * thingo: the [logger] package and the worker pool it serves

    Part I ([Module Logger]) is a shallow embedding of [logger/log.go]:
    the package-level configuration variables, the zap core and handle,
    the level functions and [Recover].

    Part II ([Module Pool]) is the bounded worker pool that the design
    text describes around it: queue, workers, submission and shutdown,
    as a transition system over interleavings.

    The facts about each part follow the definitions. *)

From Stdlib Require Import ZArith.
From stdpp Require Import gmap strings list fin_maps.

Local Open Scope string_scope.
Local Open Scope Z_scope.

Module Logger.

(** ** Values and levels *)

(** A non-nil Go value held in an [interface{}]. *)
Inductive dyn : Type :=
  | DString (s : string)
  | DInt (n : Z)
  | DBool (b : bool)
  | DError (msg : string)
  | DRuntimeError (msg : string).

(** [interface{}]: [None] is the nil interface. *)
Abbreviation any := (option dyn).

#[export] Instance dyn_eq_dec : EqDecision dyn.
Proof. solve_decision. Defined.

(** [zapcore.Level], an [int8] enumerated from [DebugLevel = -1]. *)
Inductive Level : Type :=
  | DebugLevel | InfoLevel | WarnLevel | ErrorLevel
  | DPanicLevel | PanicLevel | FatalLevel.

#[export] Instance Level_eq_dec : EqDecision Level.
Proof. solve_decision. Defined.

Definition level_num (l : Level) : Z :=
  match l with
  | DebugLevel => -1
  | InfoLevel => 0
  | WarnLevel => 1
  | ErrorLevel => 2
  | DPanicLevel => 3
  | PanicLevel => 4
  | FatalLevel => 5
  end.

(** [levelMap]: the level names, from low to high. *)
Definition levelMap : gmap string Level :=
  list_to_map
    [ ("debug", DebugLevel);
      ("info", InfoLevel);
      ("warn", WarnLevel);
      ("error", ErrorLevel);
      ("dpanic", DPanicLevel);
      ("panic", PanicLevel);
      ("fatal", FatalLevel) ].

(** [getLevel]: the comma-ok lookup in [levelMap], [InfoLevel] when the
    name is absent. *)
Definition getLevel (lvl : string) : Level :=
  match levelMap !! lvl with
  | Some level => level
  | None => InfoLevel
  end.

(** ** The zap objects the package builds

    zap, zapcore and lumberjack are external libraries.  Only what
    [log.go] sets or relies on is kept: the rotating writer's settings,
    the encoder's key names, the core's minimum level, and the options of
    a logger ([zap.New] leaves [development] off; only the option
    [zap.Development], which [log.go] never passes, turns it on). *)

Record Lumberjack : Type := {
  lj_Filename : string;
  lj_MaxSize : Z;
  lj_MaxAge : Z;
  lj_LocalTime : bool;
  lj_Compress : bool
}.

Record EncoderConfig : Type := {
  TimeKey : string;
  LevelKey : string;
  MessageKey : string;
  CallerKey : string
}.

Record Core : Type := {
  encoder : EncoderConfig;
  writer : Lumberjack;
  enab : Level
}.

(** [zcore] is [None] for the no-op core [zap.New] falls back to when it
    is handed a nil core. *)
Record ZapLogger : Type := {
  zcore : option Core;
  addCaller : bool;
  callerSkip : Z;
  development : bool
}.

Definition zap_New (c : option Core) : ZapLogger :=
  {| zcore := c; addCaller := false; callerSkip := 0; development := false |}.

Definition zap_AddCaller (l : ZapLogger) : ZapLogger :=
  {| zcore := zcore l; addCaller := true;
     callerSkip := callerSkip l; development := development l |}.

Definition zap_AddCallerSkip (n : Z) (l : ZapLogger) : ZapLogger :=
  {| zcore := zcore l; addCaller := addCaller l;
     callerSkip := callerSkip l + n; development := development l |}.

(** [zap.Field] as built by [zap.Any(k, v)]. *)
Record Field : Type := { Key : string; Interface : any }.

(** What a level method of the handle is invoked with. *)
Record LogCall : Type := {
  call_level : Level;
  call_msg : string;
  call_fields : list Field
}.

(** An entry a core has handed to its writer: the file it goes to, the
    level, the message and the fields.  Whether zap can also attach a
    caller (file and line) depends on the call stack at the moment of the
    call, which is not modelled; the entry records none. *)
Record Entry : Type := {
  entry_file : string;
  entry_level : Level;
  entry_msg : string;
  entry_fields : list Field
}.

(** A line printed by the standard [log] package. *)
Inductive StdLine : Type :=
  | PrintMsg (msg : string)
  | PrintFields (options : gmap string any)
  | PrintErr (err : string).

(** ** Package state *)

(** The [var ( ... )] block of configuration variables. *)
Record Config : Type := {
  logMaxAge : Z;
  logMaxSize : Z;
  logCompress : bool;
  logTraceFileLine : bool;
  logLevel : string;
  logFileName : string;
  logDir : string
}.

(** The package variables [fLogger] and [core] (nil is [None]), the
    configuration, and what the package can observe or change outside
    itself: the directories that exist, the lines printed through [log],
    the invocations of the handle's level methods, and the entries the
    cores handed to their writers.  The last three are histories of what
    the package did, in order; [sink] is not the content of a log file,
    which the rotating writer may cut or remove later. *)
Record State : Type := {
  fLogger : option ZapLogger;
  core : option Core;
  cfg : Config;
  dirs : gset string;
  stdlog : list StdLine;
  calls : list LogCall;
  sink : list Entry
}.

Definition init_cfg : Config :=
  {| logMaxAge := 7; logMaxSize := 512; logCompress := false;
     logTraceFileLine := true; logLevel := "debug";
     logFileName := "go-zap.log"; logDir := "" |}.

Definition init_state (existing : gset string) : State :=
  {| fLogger := None; core := None; cfg := init_cfg; dirs := existing;
     stdlog := []; calls := []; sink := [] |}.

Definition with_cfg (f : Config → Config) (s : State) : State :=
  {| fLogger := fLogger s; core := core s; cfg := f (cfg s); dirs := dirs s;
     stdlog := stdlog s; calls := calls s; sink := sink s |}.

Definition with_core (c : option Core) (s : State) : State :=
  {| fLogger := fLogger s; core := c; cfg := cfg s; dirs := dirs s;
     stdlog := stdlog s; calls := calls s; sink := sink s |}.

Definition with_fLogger (l : option ZapLogger) (s : State) : State :=
  {| fLogger := l; core := core s; cfg := cfg s; dirs := dirs s;
     stdlog := stdlog s; calls := calls s; sink := sink s |}.

Definition with_dirs (d : gset string) (s : State) : State :=
  {| fLogger := fLogger s; core := core s; cfg := cfg s; dirs := d;
     stdlog := stdlog s; calls := calls s; sink := sink s |}.

Definition with_stdlog (o : list StdLine) (s : State) : State :=
  {| fLogger := fLogger s; core := core s; cfg := cfg s; dirs := dirs s;
     stdlog := o; calls := calls s; sink := sink s |}.

Definition with_calls (c : list LogCall) (s : State) : State :=
  {| fLogger := fLogger s; core := core s; cfg := cfg s; dirs := dirs s;
     stdlog := stdlog s; calls := c; sink := sink s |}.

Definition with_sink (e : list Entry) (s : State) : State :=
  {| fLogger := fLogger s; core := core s; cfg := cfg s; dirs := dirs s;
     stdlog := stdlog s; calls := calls s; sink := e |}.

Definition set_logMaxAge (n : Z) (c : Config) : Config :=
  {| logMaxAge := n; logMaxSize := logMaxSize c; logCompress := logCompress c;
     logTraceFileLine := logTraceFileLine c; logLevel := logLevel c;
     logFileName := logFileName c; logDir := logDir c |}.

Definition set_logMaxSize (n : Z) (c : Config) : Config :=
  {| logMaxAge := logMaxAge c; logMaxSize := n; logCompress := logCompress c;
     logTraceFileLine := logTraceFileLine c; logLevel := logLevel c;
     logFileName := logFileName c; logDir := logDir c |}.

Definition set_logCompress (b : bool) (c : Config) : Config :=
  {| logMaxAge := logMaxAge c; logMaxSize := logMaxSize c; logCompress := b;
     logTraceFileLine := logTraceFileLine c; logLevel := logLevel c;
     logFileName := logFileName c; logDir := logDir c |}.

Definition set_logTraceFileLine (b : bool) (c : Config) : Config :=
  {| logMaxAge := logMaxAge c; logMaxSize := logMaxSize c;
     logCompress := logCompress c; logTraceFileLine := b;
     logLevel := logLevel c; logFileName := logFileName c;
     logDir := logDir c |}.

Definition set_logLevel (lvl : string) (c : Config) : Config :=
  {| logMaxAge := logMaxAge c; logMaxSize := logMaxSize c;
     logCompress := logCompress c; logTraceFileLine := logTraceFileLine c;
     logLevel := lvl; logFileName := logFileName c; logDir := logDir c |}.

Definition set_logFileName (name : string) (c : Config) : Config :=
  {| logMaxAge := logMaxAge c; logMaxSize := logMaxSize c;
     logCompress := logCompress c; logTraceFileLine := logTraceFileLine c;
     logLevel := logLevel c; logFileName := name; logDir := logDir c |}.

Definition set_logDir (dir : string) (c : Config) : Config :=
  {| logMaxAge := logMaxAge c; logMaxSize := logMaxSize c;
     logCompress := logCompress c; logTraceFileLine := logTraceFileLine c;
     logLevel := logLevel c; logFileName := logFileName c; logDir := dir |}.

(** ** Control flow

    A call returns, leaves by a panic carrying a value, or ends the
    process ([os.Exit]).  In each case the package state it reached is
    kept: a panic can be recovered by a caller and the package used
    again. *)

Inductive Result (A : Type) : Type :=
  | Ret (a : A) (s : State)
  | Panicked (v : dyn) (s : State)
  | Exited (code : Z) (s : State).

Arguments Ret {A} a s.
Arguments Panicked {A} v s.
Arguments Exited {A} code s.

Definition M (A : Type) : Type := State → Result A.

Definition ret {A} (a : A) : M A := fun s => Ret a s.

Definition bind {A B} (k : A → M B) (m : M A) : M B :=
  fun s =>
    match m s with
    | Ret a s' => k a s'
    | Panicked v s' => Panicked v s'
    | Exited c s' => Exited c s'
    end.

#[export] Instance M_ret : MRet M := @ret.
#[export] Instance M_bind : MBind M := @bind.

Definition gets {A} (f : State → A) : M A := fun s => Ret (f s) s.
Definition modify (f : State → State) : M unit := fun s => Ret tt (f s).
Definition panic {A} (v : dyn) : M A := fun s => Panicked v s.
Definition os_Exit {A} (code : Z) : M A := fun s => Exited code s.

(** The state a call leaves behind, however it ended. *)
Definition after {A} (r : Result A) : State :=
  match r with
  | Ret _ s => s
  | Panicked _ s => s
  | Exited _ s => s
  end.

Definition returns {A} (r : Result A) : bool :=
  match r with Ret _ _ => true | _ => false end.

(** What the package asks of the operating system: [os.TempDir];
    [filepath.Join] on two elements; whether [os.MkdirAll(dir, 0755)]
    fails (with which error); the parent directories of a path, all of
    which a successful [os.MkdirAll] leaves in existence beside the path
    itself; and the parents a failing [os.MkdirAll] had made before it
    failed. *)
Record OS : Type := {
  TempDir : string;
  Join : string → string → string;
  MkdirAll_err : string → option string;
  Parents : string → gset string;
  MkdirAll_partial : string → gset string
}.

(** ** Configuration functions *)

Definition MaxAge (n : Z) : M unit := modify (with_cfg (set_logMaxAge n)).

Definition MaxSize (n : Z) : M unit := modify (with_cfg (set_logMaxSize n)).

Definition Compress (b : bool) : M unit :=
  modify (with_cfg (set_logCompress b)).

Definition TraceFileLine (b : bool) : M unit :=
  modify (with_cfg (set_logTraceFileLine b)).

Definition LogLevel (lvl : string) : M unit :=
  modify (with_cfg (set_logLevel lvl)).

Definition SetLogFile (name : string) : M unit :=
  if decide (name = "") then ret tt
  else modify (with_cfg (set_logFileName name)).

(** [checkPathExist]: [os.Stat] succeeds exactly on the paths that
    exist; every error gives [false]. *)
Definition checkPathExist (path : string) : M bool :=
  gets (fun s => bool_decide (path ∈ dirs s)).

Definition log_Println (l : StdLine) : M unit :=
  modify (fun s => with_stdlog (stdlog s ++ [l]) s).

(** [os.MkdirAll]: on success the path and every parent of it exist; on
    failure the parents made so far stay. *)
Definition os_MkdirAll (os : OS) (dir : string) : M (option string) :=
  match MkdirAll_err os dir with
  | Some err =>
      modify (fun s => with_dirs (MkdirAll_partial os dir ∪ dirs s) s);;
      ret (Some err)
  | None =>
      modify (fun s => with_dirs ({[dir]} ∪ Parents os dir ∪ dirs s) s);;
      ret None
  end.

Definition SetLogDir (os : OS) (dir : string) : M unit :=
  if decide (dir = "") then modify (with_cfg (set_logDir (TempDir os)))
  else
    ex ← checkPathExist dir;
    if negb ex then
      err ← os_MkdirAll os dir;
      match err with
      | Some e => log_Println (PrintErr e)
      | None => modify (with_cfg (set_logDir dir))
      end
    else modify (with_cfg (set_logDir dir)).

(** ** Building the core and the handle *)

Definition encoderConf : EncoderConfig :=
  {| TimeKey := "time_local"; LevelKey := "level";
     MessageKey := "msg"; CallerKey := "caller_line" |}.

Definition initCore (os : OS) : M unit :=
  dir ← gets (fun s => logDir (cfg s));
  name ← gets (fun s => logFileName (cfg s));
  (if decide (dir = "")
   then modify (with_cfg (set_logFileName (Join os (TempDir os) name)))
   else modify (with_cfg (set_logFileName (Join os dir name))));;
  c ← gets cfg;
  let level := getLevel (logLevel c) in
  let syncWriter :=
    {| lj_Filename := logFileName c; lj_MaxSize := logMaxSize c;
       lj_MaxAge := logMaxAge c; lj_LocalTime := true;
       lj_Compress := logCompress c |} in
  modify (with_core
            (Some {| encoder := encoderConf; writer := syncWriter;
                     enab := level |})).

(** The logger both [InitLogger] and [LogSugar] build from the core:
    with caller annotation when [logTraceFileLine] holds and a first
    [skip] argument above zero is given, plain otherwise. *)
Definition new_logger (trace : bool) (skip : list Z) (c : option Core)
  : ZapLogger :=
  match skip with
  | sk :: _ =>
      if trace && bool_decide (0 < sk)
      then zap_AddCallerSkip sk (zap_AddCaller (zap_New c))
      else zap_New c
  | [] => zap_New c
  end.

Definition InitLogger (os : OS) (skip : list Z) : M unit :=
  c0 ← gets core;
  (if decide (c0 = None) then initCore os else ret tt);;
  c ← gets core;
  trace ← gets (fun s => logTraceFileLine (cfg s));
  modify (with_fLogger (Some (new_logger trace skip c))).

(** [LogSugar] returns the sugared wrapper of a fresh logger; the
    wrapper adds no state, so the logger stands for it. *)
Definition LogSugar (os : OS) (skip : list Z) : M ZapLogger :=
  c0 ← gets core;
  (if decide (c0 = None) then initCore os else ret tt);;
  c ← gets core;
  trace ← gets (fun s => logTraceFileLine (cfg s));
  ret (new_logger trace skip c).

(** ** The level functions *)

(** [parseFields]: nil for an empty map, otherwise one [zap.Any(k,
    fields[k])] per key of the [range] loop.  Go leaves the iteration
    order of a map unspecified; the order of [map_to_list] stands for
    whichever order a run takes. *)
Definition parseFields (fields : gmap string any) : list Field :=
  let fLen := size fields in
  if decide (fLen = 0%nat) then []
  else (fun k => {| Key := k; Interface := default None (fields !! k) |})
         <$> (map_to_list fields).*1.

(** A core writes an entry when the entry's level is at least the
    core's. *)
Definition enabled (c : Core) (lvl : Level) : bool :=
  bool_decide (level_num (enab c) ≤ level_num lvl).

(** The write of a checked entry; the no-op core writes nothing. *)
Definition zap_write (l : ZapLogger) (lvl : Level) (msg : string)
    (fields : list Field) : M unit :=
  match zcore l with
  | Some c =>
      if enabled c lvl then
        modify (fun s =>
          with_sink
            (sink s ++
               [ {| entry_file := lj_Filename (writer c); entry_level := lvl;
                    entry_msg := msg; entry_fields := fields |} ])
            s)
      else ret tt
  | None => ret tt
  end.

Definition nil_dereference : dyn :=
  DRuntimeError "invalid memory address or nil pointer dereference".

(** Invoking the level method [lvl] of the handle [h] (zap's [Logger.Info],
    [Warn], [Error], [DPanic], [Panic], [Fatal]).  A nil handle faults as
    soon as the method reads the logger.  Otherwise the entry is written
    if the core enables its level, and then: [Panic] panics with the
    message, [Fatal] ends the process with status 1 (both also when the
    level is disabled), [DPanic] panics only on a development logger. *)
Definition zap_log (h : option ZapLogger) (lvl : Level) (msg : string)
    (fields : list Field) : M unit :=
  modify (fun s =>
    with_calls
      (calls s ++
         [ {| call_level := lvl; call_msg := msg; call_fields := fields |} ])
      s);;
  match h with
  | None => panic nil_dereference
  | Some l =>
      zap_write l lvl msg fields;;
      match lvl with
      | PanicLevel => panic (DString msg)
      | FatalLevel => os_Exit 1
      | DPanicLevel => if development l then panic (DString msg) else ret tt
      | _ => ret tt
      end
  end.

(** [Debug] prints to the terminal through the standard [log] package
    and never touches the handle. *)
Definition Debug (msg : string) (options : gmap string any) : M unit :=
  log_Println (PrintMsg msg);;
  log_Println (PrintFields options).

Definition Info (msg : string) (options : gmap string any) : M unit :=
  let fields := parseFields options in
  h ← gets fLogger;
  zap_log h InfoLevel msg fields.

Definition Warn (msg : string) (options : gmap string any) : M unit :=
  let fields := parseFields options in
  h ← gets fLogger;
  zap_log h WarnLevel msg fields.

Definition Error (msg : string) (options : gmap string any) : M unit :=
  let fields := parseFields options in
  h ← gets fLogger;
  zap_log h ErrorLevel msg fields.

Definition DPanic (msg : string) (options : gmap string any) : M unit :=
  let fields := parseFields options in
  h ← gets fLogger;
  zap_log h DPanicLevel msg fields.

Definition Panic (msg : string) (options : gmap string any) : M unit :=
  let fields := parseFields options in
  h ← gets fLogger;
  zap_log h PanicLevel msg fields.

Definition Fatal (msg : string) (options : gmap string any) : M unit :=
  let fields := parseFields options in
  h ← gets fLogger;
  zap_log h FatalLevel msg fields.

(** ** Recover *)

(** The goroutine in which [Recover] runs: the value of the panic that
    is unwinding it, if any, and the text [debug.Stack] renders for it.
    The value of a panic is an [interface{}]: under the Go versions the
    package was written for, [panic(nil)] unwinds with the nil value
    (from Go 1.21 on the runtime replaces it by a run-time error). *)
Record Goroutine : Type := {
  panicking : option any;
  stack : string
}.

(** How a function that calls [recover] was entered: as the deferred
    function itself, run by the runtime while it unwinds the stack or
    returns ([defer Recover()]); or called by other code, for instance
    from inside a deferred closure. *)
Inductive Invocation : Type :=
  | Deferred
  | Called.

(** The builtin [recover] in a function entered as [how].  Called by
    the deferred function of a panicking goroutine it returns the panic's
    value and ends the panic; in every other case (no panic, or not
    called directly by the deferred function) it returns nil and changes
    nothing. *)
Definition recover (how : Invocation) (g : Goroutine) : any * Goroutine :=
  match how, panicking g with
  | Deferred, Some v => (v, {| panicking := None; stack := stack g |})
  | _, _ => (None, g)
  end.

Definition debug_Stack (g : Goroutine) : string := stack g.

(** [Recover], entered as [how] in goroutine [g]; the result is the
    goroutine once [Recover] has returned. *)
Definition Recover (how : Invocation) (g : Goroutine) : M Goroutine :=
  let (err, g') := recover how g in
  match err with
  | Some e =>
      DPanic "exec panic"
        (<["error" := Some e]>
           (<["error_trace" := Some (DString (debug_Stack g'))]> ∅));;
      ret g'
  | None => ret g'
  end.

(** ** Using the package: sequences of calls *)

Inductive Call : Type :=
  | CMaxAge (n : Z)
  | CMaxSize (n : Z)
  | CCompress (b : bool)
  | CTraceFileLine (b : bool)
  | CLogLevel (lvl : string)
  | CSetLogFile (name : string)
  | CSetLogDir (dir : string)
  | CInitLogger (skip : list Z)
  | CLogSugar (skip : list Z)
  | CDebug (msg : string) (options : gmap string any)
  | CInfo (msg : string) (options : gmap string any)
  | CWarn (msg : string) (options : gmap string any)
  | CError (msg : string) (options : gmap string any)
  | CDPanic (msg : string) (options : gmap string any)
  | CPanic (msg : string) (options : gmap string any)
  | CFatal (msg : string) (options : gmap string any)
  | CRecover (how : Invocation) (g : Goroutine).

Definition discard {A} (m : M A) : M unit := m;; ret tt.

Definition exec (os : OS) (c : Call) : M unit :=
  match c with
  | CMaxAge n => MaxAge n
  | CMaxSize n => MaxSize n
  | CCompress b => Compress b
  | CTraceFileLine b => TraceFileLine b
  | CLogLevel lvl => LogLevel lvl
  | CSetLogFile name => SetLogFile name
  | CSetLogDir dir => SetLogDir os dir
  | CInitLogger skip => InitLogger os skip
  | CLogSugar skip => discard (LogSugar os skip)
  | CDebug msg o => Debug msg o
  | CInfo msg o => Info msg o
  | CWarn msg o => Warn msg o
  | CError msg o => Error msg o
  | CDPanic msg o => DPanic msg o
  | CPanic msg o => Panic msg o
  | CFatal msg o => Fatal msg o
  | CRecover how g => discard (Recover how g)
  end.

Definition is_InitLogger (c : Call) : bool :=
  match c with CInitLogger _ => true | _ => false end.

(** The state after a program has made the calls [cs] in order.  A call
    that panics leaves the package usable (the caller may recover); a
    call that exits the process ends the sequence. *)
Fixpoint run (os : OS) (cs : list Call) (s : State) : State :=
  match cs with
  | [] => s
  | c :: cs' =>
      match exec os c s with
      | Exited _ s' => s'
      | r => run os cs' (after r)
      end
  end.

(** ** Auxiliary definitions for the statements *)

(** The keys of [levelMap]. *)
Definition level_names : list string :=
  ["debug"; "info"; "warn"; "error"; "dpanic"; "panic"; "fatal"].

(** A handle as [InitLogger] builds it: present, and not in development
    mode. *)
Definition plain_handle (s : State) : Prop :=
  ∃ l, fLogger s = Some l ∧ development l = false.

(** The parent of a slash-separated path, as [os.MkdirAll] finds it:
    trailing separators are skipped, the last element is dropped with
    the separator before it; a path of one element, or directly under the
    root, has none. *)
Definition is_sep (a : Ascii.ascii) : bool := bool_decide (a = Ascii.ascii_of_nat 47).

Fixpoint drop_while (f : Ascii.ascii → bool) (l : list Ascii.ascii)
  : list Ascii.ascii :=
  match l with
  | a :: l' => if f a then drop_while f l' else l
  | [] => []
  end.

Definition unix_parent (path : list Ascii.ascii)
  : option (list Ascii.ascii) :=
  let above :=
    drop_while (fun a => negb (is_sep a)) (drop_while is_sep (rev path)) in
  match above with
  | _ :: (_ :: _) as rest => Some (rev rest)
  | _ => None
  end.

Fixpoint unix_parents_upto (fuel : nat) (path : list Ascii.ascii)
  : gset string :=
  match fuel with
  | O => ∅
  | S fuel' =>
      match unix_parent path with
      | Some up =>
          {[ String.string_of_list_ascii up ]} ∪ unix_parents_upto fuel' up
      | None => ∅
      end
  end.

Definition unix_parents (path : string) : gset string :=
  unix_parents_upto (String.length path) (String.list_ascii_of_string path).

(** A sample operating system for concrete runs. *)
Definition sample_os : OS :=
  {| TempDir := "/tmp";
     Join := fun a b => a +:+ "/" +:+ b;
     MkdirAll_err := fun _ => None;
     Parents := unix_parents;
     MkdirAll_partial := fun _ => ∅ |}.

(** ** Further auxiliary definitions *)

(** A map binding as a field, and back. *)
Definition field_of (kv : string * any) : Field :=
  {| Key := kv.1; Interface := kv.2 |}.

Definition pair_of (f : Field) : string * any := (Key f, Interface f).

(** The calls that only assign configuration variables. *)
Definition is_setter (c : Call) : bool :=
  match c with
  | CMaxAge _ | CMaxSize _ | CCompress _ | CTraceFileLine _ | CLogLevel _
  | CSetLogFile _ | CSetLogDir _ => true
  | _ => false
  end.

(** The handle, when there is one, is a plain logger over the package's
    core. *)
Definition shares_core (s : State) : Prop :=
  ∀ l, fLogger s = Some l →
       zcore l = core s ∧ core s ≠ None ∧ development l = false.

(** The state in which [InitLogger] and [LogSugar] build their logger:
    the given one, with the core built first if there was none. *)
Definition with_core_ready (os : OS) (s : State) : State :=
  match core s with
  | None => after (initCore os s)
  | Some _ => s
  end.

(** The calls that invoke a level method of the handle. *)
Definition is_log_call (c : Call) : bool :=
  match c with
  | CInfo _ _ | CWarn _ _ | CError _ _ | CDPanic _ _ | CPanic _ _
  | CFatal _ _ | CRecover _ _ => true
  | _ => false
  end.

(** The entry a handle over core [c] writes for a call, and the
    invocation of the handle the call makes. *)
Definition entry_of (c : Core) (lvl : Level) (msg : string)
    (o : gmap string any) : Entry :=
  {| entry_file := lj_Filename (writer c); entry_level := lvl;
     entry_msg := msg; entry_fields := parseFields o |}.

Definition call_of (lvl : Level) (msg : string) (o : gmap string any)
  : LogCall :=
  {| call_level := lvl; call_msg := msg; call_fields := parseFields o |}.

(** What a level call at [lvl] leaves behind when it starts in [s] with a
    handle over core [c]: one more invocation of the handle, and one
    more entry if the core's level admits [lvl]. *)
Definition logged (s : State) (c : Core) (lvl : Level) (msg : string)
    (o : gmap string any) (s' : State) : Prop :=
  calls s' = (calls s ++ [call_of lvl msg o])%list ∧
  sink s' = (if enabled c lvl then (sink s ++ [entry_of c lvl msg o])%list
             else sink s).

(** A handle as [InitLogger] builds it, with its core. *)
Definition handle_over (s : State) (l : ZapLogger) (c : Core) : Prop :=
  fLogger s = Some l ∧ zcore l = Some c ∧ development l = false.

End Logger.

(** * Part II: the worker pool *)

Module Pool.

Local Open Scope nat_scope.
Local Open Scope list_scope.

(** ** Data model *)

(** Modelled from the spec: the pool's own code (the packages workpool,
    work and gqueue) is not among the sources at hand, so the pool is
    built from the design text.  An action is a zero-argument callable;
    what the pool can tell of one is which action it is and whether
    running it raises a runtime fault. *)
Record Action : Type := {
  act_id : nat;
  act_faults : bool
}.

(** Modelled from the spec: a Task (pool sources missing) is the action,
    an optional opaque identifier and the submission timestamp; neither
    of the last two affects scheduling. *)
Record Task : Type := {
  action : Action;
  id : option string;
  submittedAt : nat
}.

#[export] Instance Action_eq_dec : EqDecision Action.
Proof. solve_decision. Defined.

#[export] Instance Task_eq_dec : EqDecision Task.
Proof. solve_decision. Defined.

(** Modelled from the spec: the full-queue policy chosen at construction
    (pool sources missing): block the submitter, fail fast, or block up
    to a timeout. *)
Inductive FullPolicy : Type :=
  | Block
  | Reject
  | TimeoutAfter (d : nat).

(** Modelled from the spec: the shutdown state machine's states (pool
    sources missing); [Running] is initial, [Stopped] terminal. *)
Inductive PoolState : Type :=
  | Running
  | Draining
  | Stopped.

#[export] Instance PoolState_eq_dec : EqDecision PoolState.
Proof. solve_decision. Defined.

(** Modelled from the spec: a Worker's loop (pool sources missing) is
    waiting in [Pop], executing a task, or has exited on the closed
    signal. *)
Inductive Worker : Type :=
  | Waiting
  | Executing (t : Task)
  | Gone.

#[export] Instance Worker_eq_dec : EqDecision Worker.
Proof. solve_decision. Defined.

(** Modelled from the spec: the error taxonomy of the pool (pool sources
    missing): construction errors, submission errors, and the two
    outcomes of [Stop]. *)
Inductive ConfigError : Type :=
  | BadWorkerCount
  | BadQueueCapacity.

Inductive SubmitError : Type :=
  | QueueFull
  | Timeout
  | PoolClosed.

Inductive StopOutcome : Type :=
  | StopStopped
  | ShutdownTimeout.

(** Modelled from the spec: the Pool Manager with its Bounded Queue and
    Workers (pool sources missing).  [workerCount], [capacity] and
    [policy] are fixed at construction; [items] is the FIFO queue and
    [closed] its closed flag; [workers] holds one loop per worker.  The
    last five fields are the pool's history, kept to state properties and
    read by no operation: the tasks [Submit] accepted, each with its
    submitter, in the order the queue serialised them; the tasks whose
    execution started, in that order; those whose execution ended; those
    an immediate stop discarded; and the faults handed to the logging
    collaborator. *)
Record Pool : Type := {
  workerCount : nat;
  capacity : nat;
  policy : FullPolicy;
  state : PoolState;
  items : list Task;
  closed : bool;
  workers : list Worker;
  accepted : list (nat * Task);
  started : list Task;
  finished : list Task;
  discarded : list Task;
  faults : list Task
}.

(** Modelled from the spec: [New] (pool sources missing) validates
    [workerCount ≥ 1] and [queueCapacity ≥ 0] and fails fast otherwise;
    the workers are started and waiting on the empty queue. *)
Definition New (workerCount queueCapacity : Z) (pol : FullPolicy)
  : ConfigError + Pool :=
  if decide (workerCount < 1)%Z then inl BadWorkerCount
  else if decide (queueCapacity < 0)%Z then inl BadQueueCapacity
  else inr {| workerCount := Z.to_nat workerCount;
              capacity := Z.to_nat queueCapacity;
              policy := pol;
              state := Running;
              items := [];
              closed := false;
              workers := replicate (Z.to_nat workerCount) Waiting;
              accepted := [];
              started := [];
              finished := [];
              discarded := [];
              faults := [] |}.

Definition executing (w : Worker) : option Task :=
  match w with
  | Executing t => Some t
  | _ => None
  end.

(** Modelled from the spec: the counters [pending] (queue length) and
    [active] (workers currently executing a task), pool sources missing;
    [in_flight] lists the tasks in execution, by worker. *)
Definition in_flight (ws : list Worker) : list Task := omap executing ws.

Definition pending (p : Pool) : nat := length (items p).
Definition active (p : Pool) : nat := length (in_flight (workers p)).

(** Modelled from the spec: [Stats] (pool sources missing) is the
    snapshot [(pending, active, workerCount)]. *)
Definition Stats (p : Pool) : nat * nat * nat :=
  (pending p, active p, workerCount p).

(** ** Operations *)

(** Modelled from the spec: [Push] (pool sources missing) inserts at the
    tail; [who] is the submitter. *)
Definition push (who : nat) (t : Task) (p : Pool) : Pool :=
  {| workerCount := workerCount p; capacity := capacity p;
     policy := policy p; state := state p;
     items := items p ++ [t];
     closed := closed p; workers := workers p;
     accepted := accepted p ++ [(who, t)];
     started := started p; finished := finished p;
     discarded := discarded p; faults := faults p |}.

(** Modelled from the spec: the synchronous hand-off of a zero-capacity
    queue (pool sources missing): the task goes straight to the waiting
    worker [w], which starts executing it. *)
Definition handoff (who : nat) (t : Task) (w : nat) (p : Pool) : Pool :=
  {| workerCount := workerCount p; capacity := capacity p;
     policy := policy p; state := state p;
     items := items p;
     closed := closed p; workers := <[w := Executing t]> (workers p);
     accepted := accepted p ++ [(who, t)];
     started := started p ++ [t]; finished := finished p;
     discarded := discarded p; faults := faults p |}.

(** Modelled from the spec: the worker, if any, that is ready to take a
    task immediately (pool sources missing): the one the schedule
    offers, provided it is waiting. *)
Definition ready_worker (ready : option nat) (p : Pool) : option nat :=
  match ready with
  | Some w =>
      match workers p !! w with
      | Some Waiting => Some w
      | _ => None
      end
  | None => None
  end.

Inductive SubmitResult : Type :=
  | Accepted (p' : Pool)
  | Failed (e : SubmitError)
  | Blocks.

(** Modelled from the spec: what the full-queue policy does with a
    submission that finds no room (pool sources missing): block, fail
    with [QueueFull], or block until the caller's timeout has run out
    ([expired]) and then fail with [Timeout]. *)
Definition on_full (pol : FullPolicy) (expired : bool) : SubmitResult :=
  match pol with
  | Block => Blocks
  | Reject => Failed QueueFull
  | TimeoutAfter _ => if expired then Failed Timeout else Blocks
  end.

(** Modelled from the spec: [Submit] (pool sources missing) fails with
    [PoolClosed] unless the pool is [Running]; it enqueues at the tail
    while the queue has room; a queue of capacity zero is a synchronous
    hand-off, which succeeds only when a worker is ready to take the
    task immediately; otherwise the full-queue policy applies. *)
Definition Submit (who : nat) (t : Task) (ready : option nat)
    (expired : bool) (p : Pool) : SubmitResult :=
  match state p with
  | Running =>
      if decide (length (items p) < capacity p) then Accepted (push who t p)
      else if decide (capacity p = 0) then
        match ready_worker ready p with
        | Some w => Accepted (handoff who t w p)
        | None => on_full (policy p) expired
        end
      else on_full (policy p) expired
  | _ => Failed PoolClosed
  end.

(** Modelled from the spec: the Worker loop (pool sources missing),
    first half: a waiting worker pops the head of the queue and starts
    executing it. *)
Definition pop (w : nat) (p : Pool) : option Pool :=
  match workers p !! w, items p with
  | Some Waiting, t :: rest =>
      Some {| workerCount := workerCount p; capacity := capacity p;
              policy := policy p; state := state p;
              items := rest;
              closed := closed p; workers := <[w := Executing t]> (workers p);
              accepted := accepted p;
              started := started p ++ [t]; finished := finished p;
              discarded := discarded p; faults := faults p |}
  | _, _ => None
  end.

(** Modelled from the spec: the Worker loop (pool sources missing),
    second half: the action runs to completion or fault; a fault is
    caught, handed to the logging collaborator, and the worker goes back
    to waiting either way. *)
Definition finish (w : nat) (p : Pool) : option Pool :=
  match workers p !! w with
  | Some (Executing t) =>
      Some {| workerCount := workerCount p; capacity := capacity p;
              policy := policy p; state := state p;
              items := items p;
              closed := closed p; workers := <[w := Waiting]> (workers p);
              accepted := accepted p;
              started := started p; finished := finished p ++ [t];
              discarded := discarded p;
              faults := if act_faults (action t) then faults p ++ [t]
                        else faults p |}
  | _ => None
  end.

(** Modelled from the spec: [Pop] on a closed, empty queue returns the
    closed signal (pool sources missing), on which the waiting worker
    terminates. *)
Definition exit (w : nat) (p : Pool) : option Pool :=
  match workers p !! w, items p, closed p with
  | Some Waiting, [], true =>
      Some {| workerCount := workerCount p; capacity := capacity p;
              policy := policy p; state := state p;
              items := items p;
              closed := closed p; workers := <[w := Gone]> (workers p);
              accepted := accepted p;
              started := started p; finished := finished p;
              discarded := discarded p; faults := faults p |}
  | _, _, _ => None
  end.

(** Modelled from the spec: the start of [Stop] (pool sources missing).
    On a [Running] pool it moves to [Draining] and closes the queue to
    submissions; graceful mode leaves the queued tasks to the workers,
    immediate mode discards them.  On a pool that is no longer [Running]
    the call only observes the transition under way. *)
Definition begin_stop (graceful : bool) (p : Pool) : Pool :=
  match state p with
  | Running =>
      {| workerCount := workerCount p; capacity := capacity p;
         policy := policy p; state := Draining;
         items := if graceful then items p else [];
         closed := true; workers := workers p;
         accepted := accepted p;
         started := started p; finished := finished p;
         discarded := if graceful then discarded p
                      else discarded p ++ items p;
         faults := faults p |}
  | _ => p
  end.

Definition all_gone (ws : list Worker) : bool :=
  forallb (fun w => bool_decide (w = Gone)) ws.

(** Modelled from the spec: [Draining → Stopped] (pool sources missing),
    reported by the coordinator once the queue is closed and empty and
    every worker's loop has exited. *)
Definition complete_stop (p : Pool) : option Pool :=
  match state p, items p with
  | Draining, [] =>
      if closed p && all_gone (workers p) then
        Some {| workerCount := workerCount p; capacity := capacity p;
                policy := policy p; state := Stopped;
                items := items p;
                closed := closed p; workers := workers p;
                accepted := accepted p;
                started := started p; finished := finished p;
                discarded := discarded p; faults := faults p |}
      else None
  | _, _ => None
  end.

(** Modelled from the spec: what a pending [Stop] call returns (pool
    sources missing): [Stopped] once the transition has completed,
    [ShutdownTimeout] if the caller's timeout elapses first, and nothing
    (the call stays blocked) otherwise. *)
Definition Stop_result (elapsed : bool) (p : Pool) : option StopOutcome :=
  match state p with
  | Stopped => Some StopStopped
  | _ => if elapsed then Some ShutdownTimeout else None
  end.

(** ** Interleavings *)

(** Modelled from the spec: the pool's concurrency as interleavings (pool
    sources missing).  An event is one atomic step of a submitter, a
    worker, a caller of [Stop] or the coordinator; the queue's own
    synchronisation serialises them.  [EvSubmit] carries the schedule's part in a submission:
    the worker on offer for a hand-off and whether the timeout has
    elapsed. *)
Inductive Event : Type :=
  | EvSubmit (who : nat) (t : Task) (ready : option nat) (expired : bool)
  | EvPop (w : nat)
  | EvDone (w : nat)
  | EvExit (w : nat)
  | EvStop (graceful : bool)
  | EvStopped.

(** [None]: the step cannot happen in this state (a submitter that
    blocks, a worker that is not where the step needs it). *)
Definition step (ev : Event) (p : Pool) : option Pool :=
  match ev with
  | EvSubmit who t ready expired =>
      match Submit who t ready expired p with
      | Accepted p' => Some p'
      | Failed _ => Some p
      | Blocks => None
      end
  | EvPop w => pop w p
  | EvDone w => finish w p
  | EvExit w => exit w p
  | EvStop graceful => Some (begin_stop graceful p)
  | EvStopped => complete_stop p
  end.

Fixpoint run (evs : list Event) (p : Pool) : option Pool :=
  match evs with
  | [] => Some p
  | ev :: evs' =>
      match step ev p with
      | Some p' => run evs' p'
      | None => None
      end
  end.

Definition is_immediate_stop (ev : Event) : bool :=
  match ev with
  | EvStop false => true
  | _ => false
  end.

Definition is_worker_step (ev : Event) : bool :=
  match ev with
  | EvPop _ | EvDone _ | EvExit _ => true
  | _ => false
  end.

(** Nothing queued and nothing in execution. *)
Definition drained (p : Pool) : Prop := items p = [] ∧ active p = 0.

(** ** Auxiliary definitions for the statements and their proofs *)

(** What holds of every pool reachable from [New]: one loop per worker
    and at least one; the queue within its capacity; the accepted tasks
    are, in order, those started, then those queued, then those
    discarded; the started tasks are those finished and those in
    execution; a running pool has an open queue and has discarded
    nothing, any other has a closed queue; a worker has exited only on a
    closed, empty queue; a stopped pool has an empty queue and no worker
    left. *)
Record Inv (p : Pool) : Prop := {
  inv_workers : length (workers p) = workerCount p;
  inv_some_worker : 1 ≤ workerCount p;
  inv_bounded : length (items p) ≤ capacity p;
  inv_fifo : (accepted p).*2 = started p ++ items p ++ discarded p;
  inv_exec : started p ≡ₚ finished p ++ in_flight (workers p);
  inv_running : state p = Running → closed p = false ∧ discarded p = [];
  inv_closed : state p ≠ Running → closed p = true;
  inv_gone : Gone ∈ workers p → items p = [] ∧ closed p = true;
  inv_stopped :
    state p = Stopped → items p = [] ∧ Forall (fun w => w = Gone) (workers p)
}.

(** What stays as it is while workers pop, finish and exit. *)
Definition same_shutdown (p p' : Pool) : Prop :=
  state p' = state p ∧ closed p' = closed p ∧ accepted p' = accepted p ∧
  discarded p' = discarded p.

(** The workers still waiting. *)
Definition idle (ws : list Worker) : nat :=
  length (filter (fun w => w = Waiting) ws).

(** Sample tasks, pool and schedules for concrete runs. *)
Definition sample_task (n : nat) (faulty : bool) : Task :=
  {| action := {| act_id := n; act_faults := faulty |};
     id := None; submittedAt := n |}.

Definition sample_pool : Pool :=
  {| workerCount := 2; capacity := 1; policy := Block; state := Running;
     items := []; closed := false; workers := [Waiting; Waiting];
     accepted := []; started := []; finished := []; discarded := [];
     faults := [] |}.

(** Two submitters, a faulting task first, then a graceful stop run to
    completion. *)
Definition sample_work : list Event :=
  [ EvSubmit 7 (sample_task 1 true) None false;
    EvPop 0;
    EvSubmit 8 (sample_task 2 false) None false;
    EvPop 1;
    EvSubmit 7 (sample_task 3 false) None false;
    EvDone 1;
    EvDone 0;
    EvPop 1;
    EvDone 1 ].

Definition sample_shutdown : list Event :=
  [ EvExit 0; EvExit 1; EvStopped ].

(** The submissions a schedule makes, in order, each with its
    submitter. *)
Definition submission (ev : Event) : list (nat * Task) :=
  match ev with
  | EvSubmit who t _ _ => [(who, t)]
  | _ => []
  end.

Definition submitted (evs : list Event) : list (nat * Task) :=
  flat_map submission evs.




(** The pool a schedule leads to (the pool itself if the schedule cannot
    run). *)
Definition after_run (evs : list Event) (p : Pool) : Pool :=
  default p (run evs p).

End Pool.

(** * Facts about the logger *)

Section LoggerFacts.
Import Logger.

Lemma getLevel_unknown (lvl : string) :
  lvl ∉ level_names → getLevel lvl = InfoLevel.
Proof.
  intros Hn. unfold getLevel.
  assert (levelMap !! lvl = None) as ->; [|done].
  apply not_elem_of_list_to_map. exact Hn.
Qed.

(** Unfolding of the monad's plumbing. *)
Ltac unfold_M :=
  unfold discard, log_Println, checkPathExist, os_MkdirAll in *;
  unfold mbind, M_bind, bind, mret, M_ret, ret, gets, modify, panic, os_Exit
    in *;
  simpl in *.

Ltac unfold_api :=
  unfold exec, Recover, MaxAge, MaxSize, Compress, TraceFileLine, LogLevel,
    SetLogFile, SetLogDir, InitLogger, LogSugar, initCore, Debug, Info, Warn,
    Error, DPanic, Panic, Fatal, zap_log, zap_write in *.

Ltac split_cases :=
  repeat (simpl in *; simplify_eq;
          match goal with
          | |- context [decide ?P] => destruct (decide P)
          | |- context [match ?x with _ => _ end] => destruct x eqn:?
          | H : context [match ?x with _ => _ end] |- _ => destruct x eqn:?
          end);
  simpl in *; simplify_eq.

(** *** Which calls touch the handle *)

Lemma exec_fLogger (os : OS) (c : Call) (s : State) :
  is_InitLogger c = false → fLogger (after (exec os c s)) = fLogger s.
Proof.
  intros Hc. destruct c; try discriminate; unfold_api; unfold_M;
    split_cases; simpl; congruence.
Qed.

Lemma run_without_InitLogger (os : OS) (cs : list Call) (s : State) :
  forallb (fun c => negb (is_InitLogger c)) cs = true →
  fLogger (run os cs s) = fLogger s.
Proof.
  revert s. induction cs as [|c cs IH]; intros s Hcs; [reflexivity|].
  simpl in Hcs. apply andb_prop in Hcs as [Hc Hcs].
  apply negb_true_iff in Hc.
  pose proof (exec_fLogger os c s Hc) as Hf.
  simpl. destruct (exec os c s) as [a s'|v s'|code s']; simpl in Hf;
    [rewrite IH by done; done | rewrite IH by done; done | done].
Qed.

Lemma new_logger_development (trace : bool) (skip : list Z) (c : option Core) :
  development (new_logger trace skip c) = false.
Proof.
  unfold new_logger. destruct skip as [|sk ?]; [done|].
  destruct (trace && bool_decide (0 < sk)); done.
Qed.

Lemma InitLogger_returns (os : OS) (skip : list Z) (s : State) :
  ∃ s', InitLogger os skip s = Ret tt s' ∧ plain_handle s'.
Proof.
  unfold_api; unfold_M. split_cases; eexists; (split; [reflexivity|]);
    eexists; (split; [reflexivity|]); apply new_logger_development.
Qed.

Lemma exec_plain_handle (os : OS) (c : Call) (s : State) :
  plain_handle s → plain_handle (after (exec os c s)).
Proof.
  intros Hs. destruct (is_InitLogger c) eqn:Hc.
  - destruct c; try discriminate. simpl.
    destruct (InitLogger_returns os skip s) as (s' & -> & Hs'). exact Hs'.
  - destruct Hs as (l & Hl & Hd). exists l.
    rewrite exec_fLogger by done. done.
Qed.

Lemma run_plain_handle (os : OS) (cs : list Call) (s : State) :
  plain_handle s → plain_handle (run os cs s).
Proof.
  revert s. induction cs as [|c cs IH]; intros s Hs; [done|].
  pose proof (exec_plain_handle os c s Hs) as Hs'.
  simpl. destruct (exec os c s); simpl in Hs'; auto.
Qed.

(** *** The level methods on a plain handle and on a nil handle *)

Lemma zap_log_nil (lvl : Level) (msg : string) (fields : list Field)
    (s : State) :
  ∃ s', zap_log None lvl msg fields s = Panicked nil_dereference s'.
Proof. unfold zap_log; unfold_M. eauto. Qed.

Lemma zap_log_plain (l : ZapLogger) (lvl : Level) (msg : string)
    (fields : list Field) (s : State) :
  development l = false →
  ∃ s', fLogger s' = fLogger s ∧
    zap_log (Some l) lvl msg fields s =
      match lvl with
      | PanicLevel => Panicked (DString msg) s'
      | FatalLevel => Exited 1 s'
      | _ => Ret tt s'
      end.
Proof.
  intros Hd. unfold zap_log, zap_write; unfold_M. rewrite Hd.
  destruct lvl; split_cases; eexists; (split; [|reflexivity]); done.
Qed.

(** *** Recover *)

(** C1, as the claim states it, fails for two invocations that run while
    a panic is unwinding.  Called from inside a deferred closure,
    [Recover] gets nil from [recover]: it returns at once, the handle is
    not invoked and the goroutine goes on panicking.  Deferred itself but
    meeting a panic whose value is nil, it ends the panic and makes no
    log call either. *)
Lemma Recover_without_log_call :
  Recover Called
    {| panicking := Some (Some (DError "boom")); stack := "main.go:7" |}
    (after (InitLogger sample_os [1] (init_state ∅)))
  = Ret {| panicking := Some (Some (DError "boom")); stack := "main.go:7" |}
      (after (InitLogger sample_os [1] (init_state ∅))) ∧
  Recover Deferred {| panicking := Some None; stack := "main.go:7" |}
    (after (InitLogger sample_os [1] (init_state ∅)))
  = Ret {| panicking := None; stack := "main.go:7" |}
      (after (InitLogger sample_os [1] (init_state ∅))).
Proof. split; reflexivity. Qed.

(** C1, amended.  When [Recover] is itself the deferred call and a panic
    with a non-nil value [e] is unwinding, it takes the panic ([recover]
    returns [e] and the goroutine stops panicking) and invokes the handle
    exactly once: at DPanic level, with message "exec panic" and the two
    fields "error" (the value [e]) and "error_trace" (the stack text), in
    either order; how that call ends depends only on the handle.  In
    every other case no call is made: with no panic unwinding, or called
    from another function, [Recover] returns at once and changes
    nothing; deferred and meeting a nil panic value it only ends the
    panic. *)
Theorem Recover_logs_once (how : Invocation) (g : Goroutine) (s : State) :
  let r := Recover how g s in
  match how, panicking g with
  | Deferred, Some (Some e) =>
      recover how g = (Some e, {| panicking := None; stack := stack g |}) ∧
      (∃ fields,
         fields ≡ₚ
           [ {| Key := "error"; Interface := Some e |};
             {| Key := "error_trace";
                Interface := Some (DString (stack g)) |} ] ∧
         calls (after r) =
           (calls s ++
              [ {| call_level := DPanicLevel; call_msg := "exec panic";
                   call_fields := fields |} ])%list) ∧
      match fLogger s with
      | None => r = Panicked nil_dereference (after r)
      | Some l =>
          if development l
          then r = Panicked (DString "exec panic") (after r)
          else r = Ret {| panicking := None; stack := stack g |} (after r)
      end
  | Deferred, Some None =>
      r = Ret {| panicking := None; stack := stack g |} s
  | _, _ => r = Ret g s
  end.
Proof.
  destruct g as [p st]; simpl.
  destruct how; [|by destruct p as [[e|]|]].
  destruct p as [[e|]|]; [|reflexivity..].
  split; [reflexivity|]. split.
  - eexists. split; [|unfold_api; unfold_M; split_cases; reflexivity].
    vm_compute. apply perm_swap.
  - unfold_api; unfold_M. destruct (fLogger s) as [l|]; [|reflexivity].
    destruct (development l); split_cases; reflexivity.
Qed.

(** C2.  Once [InitLogger] has run (whatever other calls followed it), a
    deferred [Recover] that meets a panic, whatever its value, returns
    normally with the goroutine no longer panicking: the DPanic call it
    makes goes to a handle built without development mode and does not
    panic again. *)
Theorem Recover_resumes (os : OS) (s0 : State) (skip : list Z)
    (cs : list Call) (g : Goroutine) (v : any) :
  panicking g = Some v →
  let s := run os cs (after (InitLogger os skip s0)) in
  ∃ s', Recover Deferred g s
        = Ret {| panicking := None; stack := stack g |} s'
        ∧ fLogger s' = fLogger s.
Proof.
  intros Hp s.
  destruct (InitLogger_returns os skip s0) as (s1 & Hr & Hs1).
  assert (plain_handle s) as (l & Hl & Hd).
  { subst s. rewrite Hr. simpl. by apply run_plain_handle. }
  unfold Recover, recover, debug_Stack. rewrite Hp.
  destruct v as [e|]; [|by exists s].
  destruct (zap_log_plain l DPanicLevel "exec panic"
              (parseFields
                 (<["error" := Some e]>
                    (<["error_trace" := Some (DString (stack g))]> ∅)))
              s Hd) as (s' & Hf & Hz).
  exists s'. split; [|done]. simpl.
  unfold DPanic; unfold_M. rewrite Hl, Hz. reflexivity.
Qed.

Lemma Recover_resumes_witness :
  ∃ s', Recover Deferred
          {| panicking := Some (Some (DError "boom")); stack := "main.go:7" |}
          (run sample_os [CLogLevel "warn"]
             (after (InitLogger sample_os [1] (init_state ∅))))
        = Ret {| panicking := None; stack := "main.go:7" |} s'
        ∧ fLogger s' =
            fLogger (run sample_os [CLogLevel "warn"]
                       (after (InitLogger sample_os [1] (init_state ∅)))).
Proof.
  apply (Recover_resumes sample_os (init_state ∅) [1] [CLogLevel "warn"]
           {| panicking := Some (Some (DError "boom"));
              stack := "main.go:7" |}
           (Some (DError "boom"))).
  reflexivity.
Defined.

(** *** How InitLogger and LogSugar build their logger *)

Lemma InitLogger_eq (os : OS) (skip : list Z) (s : State) :
  InitLogger os skip s =
    Ret tt
      (with_fLogger
         (Some (new_logger (logTraceFileLine (cfg s)) skip
                  (core (with_core_ready os s))))
         (with_core_ready os s)).
Proof.
  unfold InitLogger, with_core_ready, initCore.
  unfold mbind, M_bind, bind, mret, M_ret, ret, gets, modify.
  destruct (core s) as [k|] eqn:Hk; simpl; [done|].
  by destruct (decide (logDir (cfg s) = "")).
Qed.

Lemma LogSugar_eq (os : OS) (skip : list Z) (s : State) :
  LogSugar os skip s =
    Ret (new_logger (logTraceFileLine (cfg s)) skip
           (core (with_core_ready os s)))
      (with_core_ready os s).
Proof.
  unfold LogSugar, with_core_ready, initCore.
  unfold mbind, M_bind, bind, mret, M_ret, ret, gets, modify.
  destruct (core s) as [k|] eqn:Hk; simpl; [done|].
  by destruct (decide (logDir (cfg s) = "")).
Qed.

Lemma with_core_ready_core (os : OS) (s : State) :
  core (with_core_ready os s) ≠ None ∧
  fLogger (with_core_ready os s) = fLogger s ∧
  (∀ k, core s = Some k → with_core_ready os s = s).
Proof.
  unfold with_core_ready, initCore.
  unfold mbind, M_bind, bind, mret, M_ret, ret, gets, modify.
  destruct (core s) as [k|] eqn:Hk; [by rewrite Hk|].
  by destruct (decide (logDir (cfg s) = "")).
Qed.

Lemma new_logger_zcore (trace : bool) (skip : list Z) (c : option Core) :
  zcore (new_logger trace skip c) = c.
Proof. unfold new_logger. by repeat case_match. Qed.

Lemma InitLogger_handle_over (os : OS) (skip : list Z) (s : State) :
  ∃ l c, handle_over (after (InitLogger os skip s)) l c.
Proof.
  rewrite InitLogger_eq. cbn -[new_logger with_core_ready].
  destruct (with_core_ready_core os s) as (Hc & _ & _).
  destruct (core (with_core_ready os s)) as [k|] eqn:Hk; [|done].
  eexists _, k. split; [reflexivity|].
  by rewrite new_logger_zcore, new_logger_development.
Qed.

Lemma run_handle_over (os : OS) (cs : list Call) (s : State) :
  (∃ l c, handle_over s l c) → ∃ l c, handle_over (run os cs s) l c.
Proof.
  revert s. induction cs as [|c cs IH]; intros s Hs; [done|].
  assert (∃ l k, handle_over (after (exec os c s)) l k) as Hs'.
  { destruct (is_InitLogger c) eqn:Hc.
    - destruct c; try discriminate. apply InitLogger_handle_over.
    - destruct Hs as (l & k & Hl & Hk). exists l, k.
      unfold handle_over. by rewrite exec_fLogger. }
  simpl. destruct (exec os c s); simpl in Hs'; auto.
Qed.

(** *** The handle before and after InitLogger *)

Lemma level_call_nil (lvl : Level) (msg : string) (o : gmap string any)
    (s : State) :
  fLogger s = None →
  ∃ s', (h ← gets fLogger; zap_log h lvl msg (parseFields o)) s
        = Panicked nil_dereference s'.
Proof.
  intros Hn. unfold_M. rewrite Hn. apply zap_log_nil.
Qed.

Lemma level_call_effect (lvl : Level) (msg : string) (o : gmap string any)
    (s : State) (l : ZapLogger) (c : Core) :
  handle_over s l c →
  ∃ s', (h ← gets fLogger; zap_log h lvl msg (parseFields o)) s
        = match lvl with
          | PanicLevel => Panicked (DString msg) s'
          | FatalLevel => Exited 1 s'
          | _ => Ret tt s'
          end
        ∧ logged s c lvl msg o s'.
Proof.
  intros (Hl & Hc & Hd). unfold zap_log, zap_write, logged; unfold_M.
  rewrite Hl, Hc, Hd.
  destruct (enabled c lvl); destruct lvl; simpl;
    eexists; (split; [reflexivity|]); done.
Qed.

(** C8, as the claim states it, fails for [Panic]: with the handle
    initialised by [InitLogger] the call still leaves by a panic, the one
    [Panic] is there to raise. *)
Lemma Panic_after_InitLogger_panics :
  fLogger (after (InitLogger sample_os [1] (init_state ∅))) ≠ None ∧
  ∃ s', Panic "boom" ∅ (after (InitLogger sample_os [1] (init_state ∅)))
        = Panicked (DString "boom") s'.
Proof.
  split; [vm_compute; discriminate|].
  eexists. vm_compute. reflexivity.
Qed.

(** C8, amended.  In a program that has made no call to [InitLogger] the
    handle is nil, and each of [Info], [Warn], [Error], [DPanic], [Panic]
    and [Fatal] faults on the nil dereference.  Once [InitLogger] has
    been called the handle is non-nil, a plain logger over a core, and
    none of the six faults on it: each invokes the handle once and
    writes its entry if the core's level admits it; after that [Info],
    [Warn], [Error] and [DPanic] return, [Panic] panics with its message
    and [Fatal] ends the process with status 1, as they are meant to. *)
Theorem level_calls_and_InitLogger (os : OS) (msg : string)
    (o : gmap string any) :
  (∀ (existing : gset string) (cs : list Call),
     forallb (fun c => negb (is_InitLogger c)) cs = true →
     let s := run os cs (init_state existing) in
     fLogger s = None ∧
     (∃ s', Info msg o s = Panicked nil_dereference s') ∧
     (∃ s', Warn msg o s = Panicked nil_dereference s') ∧
     (∃ s', Error msg o s = Panicked nil_dereference s') ∧
     (∃ s', DPanic msg o s = Panicked nil_dereference s') ∧
     (∃ s', Panic msg o s = Panicked nil_dereference s') ∧
     (∃ s', Fatal msg o s = Panicked nil_dereference s')) ∧
  (∀ (s0 : State) (skip : list Z) (cs : list Call),
     let s := run os cs (after (InitLogger os skip s0)) in
     fLogger s ≠ None ∧
     ∃ l c, handle_over s l c ∧
       (∃ s', Info msg o s = Ret tt s' ∧ logged s c InfoLevel msg o s') ∧
       (∃ s', Warn msg o s = Ret tt s' ∧ logged s c WarnLevel msg o s') ∧
       (∃ s', Error msg o s = Ret tt s' ∧ logged s c ErrorLevel msg o s') ∧
       (∃ s', DPanic msg o s = Ret tt s' ∧
              logged s c DPanicLevel msg o s') ∧
       (∃ s', Panic msg o s = Panicked (DString msg) s' ∧
              logged s c PanicLevel msg o s') ∧
       (∃ s', Fatal msg o s = Exited 1 s' ∧
              logged s c FatalLevel msg o s')).
Proof.
  split.
  - intros existing cs Hcs s.
    assert (fLogger s = None) as Hn.
    { subst s. rewrite run_without_InitLogger by done. reflexivity. }
    split; [exact Hn|].
    unfold Info, Warn, Error, DPanic, Panic, Fatal.
    repeat split; by apply level_call_nil.
  - intros s0 skip cs s.
    assert (∃ l c, handle_over s l c) as (l & c & Hs).
    { subst s. apply run_handle_over, InitLogger_handle_over. }
    split. { destruct Hs as (-> & _). done. }
    exists l, c. split; [exact Hs|].
    unfold Info, Warn, Error, DPanic, Panic, Fatal.
    split; [exact (level_call_effect InfoLevel msg o s l c Hs)|].
    split; [exact (level_call_effect WarnLevel msg o s l c Hs)|].
    split; [exact (level_call_effect ErrorLevel msg o s l c Hs)|].
    split; [exact (level_call_effect DPanicLevel msg o s l c Hs)|].
    split; [exact (level_call_effect PanicLevel msg o s l c Hs)|].
    exact (level_call_effect FatalLevel msg o s l c Hs).
Qed.

Lemma level_calls_and_InitLogger_witness :
  fLogger (run sample_os [CLogLevel "warn"; CSetLogDir "/var/log"]
             (init_state ∅)) = None ∧
  ∃ s', Info "hello" ∅
          (run sample_os [CLogLevel "warn"; CSetLogDir "/var/log"]
             (init_state ∅))
        = Panicked nil_dereference s'.
Proof.
  pose proof
    (proj1 (level_calls_and_InitLogger sample_os "hello" ∅) ∅
       [CLogLevel "warn"; CSetLogDir "/var/log"] eq_refl) as H.
  split; [exact (proj1 H) | exact (proj1 (proj2 H))].
Defined.

(** *** Levels *)

(** C9.  [getLevel] maps each of the seven level names to its zapcore
    level and every other string to [InfoLevel]; so after [LogLevel] with
    an unrecognised name, [InitLogger] (building the core for the first
    time) returns normally with a core, shared by the handle, whose
    minimum level is [InfoLevel]. *)
Theorem getLevel_total :
  getLevel "debug" = DebugLevel ∧
  getLevel "info" = InfoLevel ∧
  getLevel "warn" = WarnLevel ∧
  getLevel "error" = ErrorLevel ∧
  getLevel "dpanic" = DPanicLevel ∧
  getLevel "panic" = PanicLevel ∧
  getLevel "fatal" = FatalLevel ∧
  (∀ lvl : string, lvl ∉ level_names → getLevel lvl = InfoLevel) ∧
  (∀ (os : OS) (s : State) (skip : list Z) (lvl : string),
     lvl ∉ level_names → core s = None →
     ∃ c s', (LogLevel lvl;; InitLogger os skip) s = Ret tt s' ∧
             core s' = Some c ∧ enab c = InfoLevel ∧
             zcore <$> fLogger s' = Some (Some c)).
Proof.
  repeat (split; [vm_compute; reflexivity|]).
  split; [exact getLevel_unknown|].
  intros os s skip lvl Hl Hc.
  unfold_api; unfold_M. rewrite Hc. simpl.
  destruct (decide (logDir (cfg s) = "")); simpl;
    (eexists; eexists; split; [reflexivity|]; simpl;
     split; [reflexivity|]; simpl; split; [by apply getLevel_unknown|]);
    destruct skip as [|sk ?]; simpl; try done;
    destruct (logTraceFileLine (cfg s) && bool_decide (0 < sk)); done.
Qed.

Lemma getLevel_total_witness :
  getLevel "verbose" = InfoLevel ∧
  ∃ c s', (LogLevel "verbose";; InitLogger sample_os []) (init_state ∅)
          = Ret tt s' ∧ core s' = Some c ∧ enab c = InfoLevel ∧
          zcore <$> fLogger s' = Some (Some c).
Proof.
  assert ("verbose" ∉ level_names) as Hn.
  { apply (bool_decide_unpack _). vm_compute. exact I. }
  destruct getLevel_total as (_ & _ & _ & _ & _ & _ & _ & Hu & Hi).
  split; [exact (Hu "verbose" Hn)|].
  exact (Hi sample_os (init_state ∅) [] "verbose" Hn eq_refl).
Defined.

(** *** Frame of SetLogFile *)

(** C10.  [SetLogFile] returns normally; [logFileName] keeps its value
    when the name is empty and becomes exactly the name otherwise; every
    other configuration variable, the core, the handle and everything
    outside the package are as before. *)
Theorem SetLogFile_frame (name : string) (s : State) :
  ∃ s', SetLogFile name s = Ret tt s' ∧
    logFileName (cfg s') =
      (if decide (name = "") then logFileName (cfg s) else name) ∧
    logMaxAge (cfg s') = logMaxAge (cfg s) ∧
    logMaxSize (cfg s') = logMaxSize (cfg s) ∧
    logCompress (cfg s') = logCompress (cfg s) ∧
    logTraceFileLine (cfg s') = logTraceFileLine (cfg s) ∧
    logLevel (cfg s') = logLevel (cfg s) ∧
    logDir (cfg s') = logDir (cfg s) ∧
    fLogger s' = fLogger s ∧ core s' = core s ∧ dirs s' = dirs s ∧
    stdlog s' = stdlog s ∧ calls s' = calls s ∧ sink s' = sink s.
Proof.
  unfold SetLogFile. destruct (decide (name = "")); unfold_M;
    eexists; (split; [reflexivity|]); simpl; repeat split; reflexivity.
Qed.

(** ** Further properties of the package

    *** parseFields *)

Lemma parseFields_map_to_list (m : gmap string any) :
  parseFields m = field_of <$> map_to_list m.
Proof.
  unfold parseFields. destruct (decide (size m = 0%nat)) as [Hz|_].
  - apply map_size_empty_inv in Hz. subst m. by rewrite map_to_list_empty.
  - rewrite <- list_fmap_compose. apply list_fmap_ext.
    intros i [k v] Hkv. simpl. unfold field_of. simpl.
    apply list_elem_of_lookup_2 in Hkv. apply elem_of_map_to_list in Hkv.
    by rewrite Hkv.
Qed.

(** [parseFields] loses nothing and invents nothing: it returns one
    field per key of the map (none for the empty map), no key twice, a
    field [(k, v)] exactly when the map binds [k] to [v], and the map can
    be rebuilt from the fields. *)
Theorem parseFields_faithful (m : gmap string any) :
  length (parseFields m) = size m ∧
  NoDup (Key <$> parseFields m) ∧
  (∀ (k : string) (v : any),
     {| Key := k; Interface := v |} ∈ parseFields m ↔ m !! k = Some v) ∧
  list_to_map (pair_of <$> parseFields m) = m.
Proof.
  rewrite parseFields_map_to_list. split; [|split; [|split]].
  - by rewrite length_fmap, length_map_to_list.
  - rewrite <- list_fmap_compose.
    replace (Key ∘ field_of) with (@fst string any) by done.
    apply NoDup_fst_map_to_list.
  - intros k v. rewrite <- elem_of_map_to_list. rewrite list_elem_of_fmap.
    split.
    + intros ([k' v'] & Heq & Hin). unfold field_of in Heq. by simplify_eq/=.
    + intros Hin. by exists (k, v).
  - rewrite <- list_fmap_compose.
    rewrite (list_fmap_ext (pair_of ∘ field_of) id (map_to_list m));
      [|by intros i [k v] _].
    rewrite list_fmap_id. apply list_to_map_to_list.
Qed.

(** *** The core and the handle over whole programs *)

Lemma exec_core_kept (os : OS) (c : Call) (s : State) (k : Core) :
  core s = Some k → core (after (exec os c s)) = Some k.
Proof.
  intros Hk. destruct c; unfold_api; unfold_M; rewrite ?Hk;
    split_cases; simpl; congruence.
Qed.

(** The core is built once: when the package has a core, no sequence of
    package calls replaces or changes it, whatever the configuration
    functions are given afterwards. *)
Theorem core_built_once (os : OS) (cs : list Call) (s : State) (k : Core) :
  core s = Some k → core (run os cs s) = Some k.
Proof.
  revert s. induction cs as [|c cs IH]; intros s Hk; [done|].
  pose proof (exec_core_kept os c s k Hk) as Hk'.
  simpl. destruct (exec os c s); simpl in Hk'; auto.
Qed.

Lemma core_built_once_witness :
  core (run sample_os [CLogLevel "fatal"; CSetLogFile "other.log";
                       CMaxSize 1; CInitLogger [2]]
          (after (InitLogger sample_os [] (init_state ∅))))
  = core (after (InitLogger sample_os [] (init_state ∅))).
Proof.
  assert (∃ k, core (after (InitLogger sample_os [] (init_state ∅))) = Some k)
    as [k Hk] by (eexists; vm_compute; reflexivity).
  rewrite Hk.
  exact (core_built_once sample_os _ _ k Hk).
Defined.

Lemma exec_shares_core (os : OS) (c : Call) (s : State) :
  shares_core s → shares_core (after (exec os c s)).
Proof.
  intros Hs. destruct (is_InitLogger c) eqn:Hc.
  - destruct c; try discriminate. cbn [exec]. rewrite InitLogger_eq.
    intros l Hl. cbn -[new_logger with_core_ready] in *.
    injection Hl as <-.
    rewrite new_logger_zcore, new_logger_development.
    by destruct (with_core_ready_core os s) as (? & _ & _).
  - intros l Hl. rewrite exec_fLogger in Hl by done.
    destruct (Hs l Hl) as (Hz & Hn & Hd).
    destruct (core s) as [k|] eqn:Hk; [|done].
    rewrite (exec_core_kept os c s k Hk). by rewrite Hz.
Qed.

(** In every state a program can reach from the start of the package,
    the handle, if set, is a logger over the package's own (non-nil) core
    and not in development mode. *)
Theorem handle_shares_core (os : OS) (existing : gset string)
    (cs : list Call) :
  shares_core (run os cs (init_state existing)).
Proof.
  assert (∀ s, shares_core s → shares_core (run os cs s)) as H.
  { induction cs as [|c cs IH]; intros s Hs; [done|].
    pose proof (exec_shares_core os c s Hs) as Hs'.
    simpl. destruct (exec os c s); simpl in Hs'; auto. }
  apply H. intros l Hl. discriminate Hl.
Qed.

(** *** InitLogger and LogSugar *)

Lemma with_core_ready_trace (os : OS) (s : State) :
  logTraceFileLine (cfg (with_core_ready os s)) = logTraceFileLine (cfg s).
Proof.
  unfold with_core_ready, initCore.
  unfold mbind, M_bind, bind, mret, M_ret, ret, gets, modify.
  destruct (core s); [done|].
  by destruct (decide (logDir (cfg s) = "")).
Qed.

(** Calling [InitLogger] again only replaces the handle: the state after
    two calls is the state after the second alone, so the core is not
    rebuilt and the file name is not joined to the directory twice; in
    particular [InitLogger] is idempotent. *)
Theorem last_InitLogger_wins (os : OS) (skip1 skip2 : list Z) (s : State) :
  after (InitLogger os skip2 (after (InitLogger os skip1 s)))
  = after (InitLogger os skip2 s).
Proof.
  rewrite (InitLogger_eq os skip1 s). cbn [after].
  rewrite !InitLogger_eq. cbn [after].
  destruct (with_core_ready_core os s) as (Hc & _ & _).
  destruct (core (with_core_ready os s)) as [k|] eqn:Hk; [|done].
  set (s1 := with_fLogger _ (with_core_ready os s)).
  assert (core s1 = Some k) as Hk1 by done.
  destruct (with_core_ready_core os s1) as (_ & _ & Hid).
  rewrite (Hid k Hk1). subst s1.
  cbn -[new_logger with_core_ready]. rewrite with_core_ready_trace.
  unfold with_fLogger. cbn -[new_logger with_core_ready].
  by rewrite Hk.
Qed.

(** [LogSugar] always returns a logger, builds the core if there is
    none, and never sets the package handle; the logger it returns is
    the one [InitLogger] with the same arguments installs, over the same
    state. *)
Theorem LogSugar_leaves_handle (os : OS) (skip : list Z) (s : State) :
  ∃ l s',
    LogSugar os skip s = Ret l s' ∧
    fLogger s' = fLogger s ∧
    core s' ≠ None ∧ zcore l = core s' ∧ development l = false ∧
    InitLogger os skip s = Ret tt (with_fLogger (Some l) s').
Proof.
  eexists _, _. split; [apply LogSugar_eq|].
  destruct (with_core_ready_core os s) as (Hc & Hf & _).
  rewrite new_logger_zcore, new_logger_development.
  repeat split; try done. apply InitLogger_eq.
Qed.

(** [InitLogger] installs a handle that records caller file and line
    exactly when [logTraceFileLine] holds and a first [skip] argument
    above zero is given; the caller skip is then that argument, and zero
    otherwise.  Further [skip] arguments are ignored. *)
Theorem caller_annotation (os : OS) (skip : list Z) (s : State) :
  ∃ l, fLogger (after (InitLogger os skip s)) = Some l ∧
    (addCaller l = true ↔
       logTraceFileLine (cfg s) = true ∧ 0 < hd 0 skip) ∧
    callerSkip l = (if addCaller l then hd 0 skip else 0).
Proof.
  rewrite InitLogger_eq. eexists. split; [reflexivity|].
  unfold new_logger. destruct skip as [|k rest]; simpl.
  - split; [|done]. split; [done|]. intros [_ ?]. lia.
  - destruct (logTraceFileLine (cfg s)); simpl.
    + case_bool_decide; simpl; (split; [|done]).
      * by split.
      * split; [done|]. intros [_ ?]. lia.
    + split; [|done]. split; [done|]. by intros [? _].
Qed.

(** *** SetLogDir *)

(** [SetLogDir] always returns and touches nothing but [logDir], the
    directories and the standard log, and it removes no directory.  The
    empty name selects the temporary directory; an existing directory is
    taken as it is; a missing one is taken once created, and it then
    exists together with all its parents; when creating it fails,
    [logDir] keeps its value and the error is only printed. *)
Theorem SetLogDir_cases (os : OS) (dir : string) (s : State) :
  ∃ s', SetLogDir os dir s = Ret tt s' ∧
    fLogger s' = fLogger s ∧ core s' = core s ∧ calls s' = calls s ∧
    sink s' = sink s ∧
    cfg s' = set_logDir (logDir (cfg s')) (cfg s) ∧
    (dirs s ⊆ dirs s') ∧
    (if decide (dir = "") then
       logDir (cfg s') = TempDir os ∧ dirs s' = dirs s ∧ stdlog s' = stdlog s
     else if decide (dir ∈ dirs s) then
       logDir (cfg s') = dir ∧ dirs s' = dirs s ∧ stdlog s' = stdlog s
     else
       match MkdirAll_err os dir with
       | None =>
           logDir (cfg s') = dir ∧ dir ∈ dirs s' ∧
           (Parents os dir ⊆ dirs s') ∧ stdlog s' = stdlog s
       | Some e =>
           logDir (cfg s') = logDir (cfg s) ∧
           stdlog s' = (stdlog s ++ [PrintErr e])%list
       end).
Proof.
  unfold SetLogDir; unfold_M.
  destruct (decide (dir = "")) as [->|Hd].
  { eexists. split; [reflexivity|]. simpl. by repeat split. }
  destruct (decide (dir ∈ dirs s)) as [Hin|Hin].
  { rewrite bool_decide_eq_true_2 by done. simpl.
    eexists. split; [reflexivity|]. simpl. by repeat split. }
  rewrite bool_decide_eq_false_2 by done. simpl.
  destruct (MkdirAll_err os dir) as [e|]; simpl;
    (eexists; split; [reflexivity|]); simpl; repeat split; try done;
    try set_solver.
  by destruct (cfg s).
Qed.

(** Unless creating the directory fails, a second [SetLogDir] with the
    same name changes nothing. *)
Theorem SetLogDir_idempotent (os : OS) (dir : string) (s : State) :
  dir = "" ∨ dir ∈ dirs s ∨ MkdirAll_err os dir = None →
  after (SetLogDir os dir (after (SetLogDir os dir s)))
  = after (SetLogDir os dir s).
Proof.
  intros H. unfold SetLogDir; unfold_M.
  destruct (decide (dir = "")) as [->|Hd]; [done|].
  destruct H as [?|H]; [done|].
  destruct (decide (dir ∈ dirs s)) as [Hin|Hin].
  { rewrite (bool_decide_eq_true_2 _ Hin). simpl.
    by rewrite (bool_decide_eq_true_2 _ Hin). }
  destruct H as [?|H]; [done|].
  rewrite (bool_decide_eq_false_2 _ Hin). simpl. rewrite H. simpl.
  rewrite bool_decide_eq_true_2 by set_solver. done.
Qed.

Lemma SetLogDir_idempotent_witness :
  after (SetLogDir sample_os "/var/log/app"
           (after (SetLogDir sample_os "/var/log/app" (init_state ∅))))
  = after (SetLogDir sample_os "/var/log/app" (init_state ∅)).
Proof.
  apply SetLogDir_idempotent. right. right. reflexivity.
Defined.

(** The first [InitLogger] builds the core from the configuration as it
    is at that moment: the file is the configured name joined to
    [logDir] (to the temporary directory when [logDir] is empty), with
    the configured size, age, compression and level and local time; and
    it overwrites [logFileName] with that joined path, leaving the other
    variables alone. *)
Theorem core_snapshot (os : OS) (skip : list Z) (s : State) :
  core s = None →
  ∃ k, core (after (InitLogger os skip s)) = Some k ∧
    lj_Filename (writer k) =
      Join os (if decide (logDir (cfg s) = "") then TempDir os
               else logDir (cfg s))
        (logFileName (cfg s)) ∧
    lj_MaxSize (writer k) = logMaxSize (cfg s) ∧
    lj_MaxAge (writer k) = logMaxAge (cfg s) ∧
    lj_Compress (writer k) = logCompress (cfg s) ∧
    lj_LocalTime (writer k) = true ∧
    enab k = getLevel (logLevel (cfg s)) ∧
    cfg (after (InitLogger os skip s))
      = set_logFileName (lj_Filename (writer k)) (cfg s).
Proof.
  intros Hn. rewrite InitLogger_eq. cbn -[new_logger with_core_ready].
  unfold with_core_ready, initCore; unfold_M. rewrite Hn.
  destruct (decide (logDir (cfg s) = "")); simpl;
    eexists; (split; [reflexivity|]); simpl; by repeat split.
Qed.

Lemma core_snapshot_witness :
  ∃ k, core (after (InitLogger sample_os [1] (init_state ∅))) = Some k ∧
       lj_Filename (writer k) = "/tmp/go-zap.log".
Proof.
  destruct (core_snapshot sample_os [1] (init_state ∅) eq_refl)
    as (k & Hk & Hf & _).
  exists k. split; [exact Hk|]. rewrite Hf. vm_compute. reflexivity.
Defined.

(** With [logDir] still empty, [SetLogDir] with the empty name makes no
    difference to the core and handle [InitLogger] builds. *)
Theorem SetLogDir_empty_is_default (os : OS) (skip : list Z) (s : State) :
  logDir (cfg s) = "" →
  core (after (InitLogger os skip (after (SetLogDir os "" s))))
    = core (after (InitLogger os skip s)) ∧
  fLogger (after (InitLogger os skip (after (SetLogDir os "" s))))
    = fLogger (after (InitLogger os skip s)).
Proof.
  intros Hd. rewrite !InitLogger_eq. cbn -[new_logger with_core_ready].
  assert (core (with_core_ready os (after (SetLogDir os "" s)))
          = core (with_core_ready os s)) as Hc.
  { unfold with_core_ready, initCore, SetLogDir; unfold_M. rewrite Hd.
    destruct (core s); [done|]. simpl.
    destruct (decide (TempDir os = "")) as [->|]; simpl; done. }
  rewrite Hc. split; [done|]. f_equal.
Qed.

Lemma SetLogDir_empty_is_default_witness :
  core (after (InitLogger sample_os [1]
                 (after (SetLogDir sample_os "" (init_state ∅)))))
  = core (after (InitLogger sample_os [1] (init_state ∅))).
Proof.
  exact (proj1 (SetLogDir_empty_is_default sample_os [1] (init_state ∅)
                  eq_refl)).
Defined.

(** *** What is handed to the writer *)

Lemma level_call_sink (lvl : Level) (msg : string) (o : gmap string any)
    (s : State) (l : ZapLogger) (c : Core) :
  fLogger s = Some l → zcore l = Some c →
  sink (after ((h ← gets fLogger; zap_log h lvl msg (parseFields o)) s))
  = if enabled c lvl then (sink s ++ [entry_of c lvl msg o])%list
    else sink s.
Proof.
  intros Hl Hc. unfold zap_log, zap_write; unfold_M. rewrite Hl, Hc.
  unfold entry_of. destruct (enabled c lvl); simpl;
    destruct lvl; simpl; try done; destruct (development l); done.
Qed.

(** With a handle over core [c], [Info], [Warn] and [Error] hand the
    core's writer exactly one entry (their level, the message, the parsed
    fields, for the core's file) when the core's level is at most
    theirs, and nothing otherwise. *)
Theorem level_filter (msg : string) (o : gmap string any) (s : State)
    (l : ZapLogger) (c : Core) :
  fLogger s = Some l → zcore l = Some c →
  sink (after (Info msg o s))
    = (if bool_decide (level_num (enab c) ≤ 0)
       then (sink s ++ [entry_of c InfoLevel msg o])%list else sink s) ∧
  sink (after (Warn msg o s))
    = (if bool_decide (level_num (enab c) ≤ 1)
       then (sink s ++ [entry_of c WarnLevel msg o])%list else sink s) ∧
  sink (after (Error msg o s))
    = (if bool_decide (level_num (enab c) ≤ 2)
       then (sink s ++ [entry_of c ErrorLevel msg o])%list else sink s).
Proof.
  intros Hl Hc. unfold Info, Warn, Error.
  rewrite !(level_call_sink _ msg o s l c Hl Hc). done.
Qed.

Lemma level_filter_witness :
  sink (after (Info "started" ∅
                 (after ((LogLevel "error";; InitLogger sample_os [])
                           (init_state ∅)))))
  = [].
Proof.
  assert (∃ l c,
            fLogger (after ((LogLevel "error";; InitLogger sample_os [])
                              (init_state ∅))) = Some l ∧
            zcore l = Some c ∧ enab c = ErrorLevel)
    as (l & c & Hl & Hc & He)
    by (eexists _, _; vm_compute; repeat split).
  destruct (level_filter "started" ∅ _ l c Hl Hc) as (H & _ & _).
  rewrite H, He. reflexivity.
Defined.

Lemma after_then_ret {A B} (m : M A) (b : B) (s : State) :
  after ((m;; mret b) s) = after (m s).
Proof. unfold_M. by destruct (m s). Qed.

(** A deferred [Recover] that meets a panic with a non-nil value hands
    the writer exactly one DPanic entry when the core's level is at most
    DPanic, and nothing at all when the core is at panic or fatal level:
    the panic is then swallowed without an entry. *)
Theorem Recover_entry (g : Goroutine) (e : dyn) (s : State)
    (l : ZapLogger) (c : Core) :
  panicking g = Some (Some e) → fLogger s = Some l → zcore l = Some c →
  sink (after (Recover Deferred g s))
  = if bool_decide (level_num (enab c) ≤ 3)
    then (sink s ++
            [entry_of c DPanicLevel "exec panic"
               (<["error" := Some e]>
                  (<["error_trace" := Some (DString (stack g))]> ∅))])%list
    else sink s.
Proof.
  intros Hp Hl Hc. unfold Recover, recover, debug_Stack. rewrite Hp.
  cbn [stack].
  change (ret ?x) with (@mret M _ _ x).
  rewrite after_then_ret. unfold DPanic.
  by rewrite (level_call_sink DPanicLevel _ _ s l c Hl Hc).
Qed.

Lemma Recover_entry_witness :
  sink (after (Recover Deferred
                 {| panicking := Some (Some (DError "boom"));
                    stack := "main.go:7" |}
                 (after ((LogLevel "panic";; InitLogger sample_os [])
                           (init_state ∅)))))
  = [].
Proof.
  assert (∃ l c,
            fLogger (after ((LogLevel "panic";; InitLogger sample_os [])
                              (init_state ∅))) = Some l ∧
            zcore l = Some c ∧ enab c = PanicLevel)
    as (l & c & Hl & Hc & He)
    by (eexists _, _; vm_compute; repeat split).
  rewrite (Recover_entry
             {| panicking := Some (Some (DError "boom"));
                stack := "main.go:7" |}
             (DError "boom") _ l c eq_refl Hl Hc), He.
  reflexivity.
Defined.

(** [Debug] works in every state, also with a nil handle and whatever the
    level: it prints its two lines through the standard log and leaves
    the handle, the core, the configuration, the call history and the
    file alone. *)
Theorem Debug_bypasses_handle (msg : string) (o : gmap string any)
    (s : State) :
  ∃ s', Debug msg o s = Ret tt s' ∧
    stdlog s' = (stdlog s ++ [PrintMsg msg; PrintFields o])%list ∧
    fLogger s' = fLogger s ∧ core s' = core s ∧ cfg s' = cfg s ∧
    dirs s' = dirs s ∧ calls s' = calls s ∧ sink s' = sink s.
Proof.
  unfold Debug; unfold_M. eexists. split; [reflexivity|]. simpl.
  rewrite <- app_assoc. by repeat split.
Qed.

(** *** Whole programs *)

Lemma setters_keep_logging_state (os : OS) (cs : list Call) (s : State) :
  forallb is_setter cs = true →
  fLogger (run os cs s) = fLogger s ∧ core (run os cs s) = core s ∧
  calls (run os cs s) = calls s ∧ sink (run os cs s) = sink s.
Proof.
  revert s. induction cs as [|c cs IH]; intros s Hcs; [done|].
  simpl in Hcs. apply andb_prop in Hcs as [Hc Hcs].
  assert (∃ s', exec os c s = Ret tt s' ∧ fLogger s' = fLogger s ∧
                core s' = core s ∧ calls s' = calls s ∧ sink s' = sink s)
    as (s' & Hr & ? & ? & ? & ?).
  { destruct c; try discriminate; unfold_api; unfold_M; split_cases;
      eexists; (split; [reflexivity|]); simpl; done. }
  simpl. rewrite Hr. simpl. destruct (IH s' Hcs) as (? & ? & ? & ?).
  repeat split; congruence.
Qed.

(** Configuration calls do not reach the handle: after any sequence of
    them, a logging call writes the same entries, makes the same handle
    invocation and ends the same way as without them. *)
Theorem late_setters_ignored (os : OS) (cs : list Call) (c : Call)
    (s : State) :
  forallb is_setter cs = true → is_log_call c = true →
  sink (after (exec os c (run os cs s))) = sink (after (exec os c s)) ∧
  calls (after (exec os c (run os cs s))) = calls (after (exec os c s)) ∧
  returns (exec os c (run os cs s)) = returns (exec os c s).
Proof.
  intros Hcs Hc.
  destruct (setters_keep_logging_state os cs s Hcs) as (Hf & _ & Hca & Hsi).
  revert Hf Hca Hsi. generalize (run os cs s). intros s2 Hf Hca Hsi.
  destruct c; try discriminate; unfold_api; unfold_M;
    rewrite ?Hf, ?Hca, ?Hsi; split_cases; simpl; rewrite ?Hca, ?Hsi; done.
Qed.

Lemma late_setters_ignored_witness :
  sink (after (exec sample_os (CInfo "hello" ∅)
                 (run sample_os [CLogLevel "fatal"; CSetLogFile "other.log"]
                    (after (InitLogger sample_os [] (init_state ∅))))))
  = sink (after (exec sample_os (CInfo "hello" ∅)
                   (after (InitLogger sample_os [] (init_state ∅))))).
Proof.
  exact (proj1 (late_setters_ignored sample_os
                  [CLogLevel "fatal"; CSetLogFile "other.log"]
                  (CInfo "hello" ∅)
                  (after (InitLogger sample_os [] (init_state ∅)))
                  eq_refl eq_refl)).
Defined.

End LoggerFacts.

(** * Facts about the worker pool *)

Section PoolFacts.
Import Pool.
Local Open Scope nat_scope.
Local Open Scope list_scope.

(** *** Workers in execution *)

Lemma in_flight_insert (ws : list Worker) (w : nat) (x y : Worker) :
  ws !! w = Some x →
  ∃ rest, in_flight ws ≡ₚ option_list (executing x) ++ rest ∧
          in_flight (<[w := y]> ws) ≡ₚ option_list (executing y) ++ rest.
Proof.
  revert w. induction ws as [|a ws IH]; intros [|w] Hw; simplify_eq/=.
  - exists (in_flight ws). unfold in_flight. simpl.
    destruct (executing x), (executing y); done.
  - destruct (IH w Hw) as (rest & H1 & H2).
    unfold in_flight in *. simpl.
    destruct (executing a) as [t|].
    + exists (t :: rest). split.
      * rewrite H1. by rewrite Permutation_middle.
      * rewrite H2. by rewrite Permutation_middle.
    + exists rest. done.
Qed.

Lemma in_flight_start (ws : list Worker) (w : nat) (t : Task) :
  ws !! w = Some Waiting →
  in_flight (<[w := Executing t]> ws) ≡ₚ in_flight ws ++ [t].
Proof.
  intros Hw. destruct (in_flight_insert ws w _ (Executing t) Hw)
    as (rest & H1 & H2). simpl in *.
  rewrite H2, H1. by rewrite Permutation_cons_append.
Qed.

Lemma in_flight_finish (ws : list Worker) (w : nat) (t : Task) :
  ws !! w = Some (Executing t) →
  in_flight ws ≡ₚ t :: in_flight (<[w := Waiting]> ws).
Proof.
  intros Hw. destruct (in_flight_insert ws w _ Waiting Hw)
    as (rest & H1 & H2). simpl in *.
  by rewrite H2, H1.
Qed.

Lemma in_flight_exit (ws : list Worker) (w : nat) :
  ws !! w = Some Waiting →
  in_flight (<[w := Gone]> ws) ≡ₚ in_flight ws.
Proof.
  intros Hw. destruct (in_flight_insert ws w _ Gone Hw)
    as (rest & H1 & H2). simpl in *.
  by rewrite H2, H1.
Qed.

Lemma elem_of_insert_inv (ws : list Worker) (w : nat) (x y : Worker) :
  x ∈ <[w := y]> ws → x = y ∨ x ∈ ws.
Proof.
  intros Hx. apply list_elem_of_lookup in Hx as [j Hj].
  apply list_lookup_insert_Some in Hj as [(-> & -> & _)|(_ & Hj)];
    [by left|right]. apply list_elem_of_lookup. eauto.
Qed.

Lemma all_gone_Forall (ws : list Worker) :
  all_gone ws = true ↔ Forall (fun w => w = Gone) ws.
Proof.
  unfold all_gone. induction ws as [|a ws IH]; simpl.
  - split; [constructor|done].
  - rewrite andb_true_iff, IH, Forall_cons, bool_decide_eq_true. done.
Qed.

(** *** The invariant holds of every reachable pool *)

Lemma New_Inv (wc cap : Z) (pol : FullPolicy) (p : Pool) :
  New wc cap pol = inr p → Inv p.
Proof.
  unfold New. intros H. repeat case_decide; simplify_eq.
  constructor; simpl; try done.
  - by rewrite length_replicate.
  - lia.
  - lia.
  - assert (in_flight (replicate (Z.to_nat wc) Waiting) = []) as ->; [|done].
    unfold in_flight. induction (Z.to_nat wc); simpl; done.
  - intros Hg. apply elem_of_replicate in Hg as [? _]. done.
Qed.

Lemma Submit_Inv (who : nat) (t : Task) (ready : option nat) (expired : bool)
    (p p' : Pool) :
  Inv p → Submit who t ready expired p = Accepted p' → Inv p'.
Proof.
  intros [] H. unfold Submit in H.
  destruct (state p) eqn:Hst; try discriminate.
  destruct inv_running0 as [Hcl Hdis]; [done|].
  destruct (decide (length (items p) < capacity p)).
  { simplify_eq. constructor; simpl; try done.
    - rewrite length_app. simpl. lia.
    - rewrite fmap_app, inv_fifo0, Hdis. simpl.
      by rewrite !app_nil_r, app_assoc.
    - intros Hg. destruct (inv_gone0 Hg). congruence.
    - rewrite Hst. done. }
  destruct (decide (capacity p = 0)) as [Hc|];
    [|by destruct (policy p), expired].
  destruct (ready_worker ready p) as [w|] eqn:Hw;
    [|by destruct (policy p), expired].
  simplify_eq. unfold ready_worker in Hw.
  destruct ready as [w'|]; [|done].
  destruct (workers p !! w') as [[]|] eqn:Hw'; simplify_eq.
  assert (items p = []) as Hi by (apply length_zero_iff_nil; lia).
  constructor; simpl; try done.
  - by rewrite length_insert.
  - rewrite fmap_app, inv_fifo0, Hdis, Hi. simpl. by rewrite !app_nil_r.
  - rewrite in_flight_start by done. rewrite inv_exec0. by rewrite app_assoc.
  - intros Hg. apply elem_of_insert_inv in Hg as [|Hg]; [done|].
    destruct (inv_gone0 Hg). congruence.
  - rewrite Hst. done.
Qed.

Lemma step_Inv (ev : Event) (p p' : Pool) :
  Inv p → step ev p = Some p' → Inv p'.
Proof.
  intros HI H. destruct ev as [who t ready expired|w|w|w|graceful|]; simpl in H.
  - destruct (Submit who t ready expired p) eqn:HS; simplify_eq;
      [by eapply Submit_Inv|done].
  - destruct HI. unfold pop in H.
    destruct (workers p !! w) as [[]|] eqn:Hw; try done.
    destruct (items p) as [|t rest] eqn:Hi; simplify_eq.
    constructor; simpl; try done.
    + by rewrite length_insert.
    + simpl in inv_bounded0. lia.
    + rewrite inv_fifo0. by rewrite <- app_assoc.
    + rewrite in_flight_start by done. rewrite inv_exec0. by rewrite app_assoc.
    + intros Hg. apply elem_of_insert_inv in Hg as [|Hg]; [done|].
      by destruct (inv_gone0 Hg).
    + intros Hs. by destruct (inv_stopped0 Hs).
  - destruct HI. unfold finish in H.
    destruct (workers p !! w) as [[]|] eqn:Hw; simplify_eq.
    constructor; simpl; try done.
    + by rewrite length_insert.
    + rewrite inv_exec0. rewrite (in_flight_finish _ _ _ Hw).
      rewrite <- app_assoc. simpl. done.
    + intros Hg. apply elem_of_insert_inv in Hg as [|Hg]; [done|]. auto.
    + intros Hs. destruct (inv_stopped0 Hs) as [? HF]. split; [done|].
      rewrite Forall_lookup in HF. by specialize (HF _ _ Hw).
  - destruct HI. unfold exit in H.
    destruct (workers p !! w) as [[]|] eqn:Hw; try done.
    destruct (items p) eqn:Hi; try done.
    destruct (closed p) eqn:Hc; simplify_eq.
    constructor; simpl; try done.
    + by rewrite length_insert.
    + rewrite in_flight_exit by done. done.
    + intros Hs. destruct (inv_stopped0 Hs) as [? HF]. split; [done|].
      rewrite Forall_lookup in HF. by specialize (HF _ _ Hw).
  - simplify_eq. unfold begin_stop.
    destruct (state p) eqn:Hst; [|done..].
    destruct HI. destruct inv_running0 as [Hcl Hdis]; [done|].
    constructor; simpl; try done.
    + destruct graceful; simpl; [done|lia].
    + rewrite inv_fifo0, Hdis. destruct graceful; simpl; by rewrite ?app_nil_r.
    + intros Hg. destruct (inv_gone0 Hg). congruence.
  - destruct HI. unfold complete_stop in H.
    destruct (state p) eqn:Hst; try done.
    destruct (items p) eqn:Hi; try done.
    destruct (closed p && all_gone (workers p)) eqn:Hc; simplify_eq.
    apply andb_prop in Hc as [Hc Hg]. apply all_gone_Forall in Hg.
    constructor; simpl; try done.
Qed.

Lemma run_Inv (evs : list Event) (p p' : Pool) :
  Inv p → run evs p = Some p' → Inv p'.
Proof.
  revert p. induction evs as [|ev evs IH]; intros p HI H; simplify_eq/=;
    [done|].
  destruct (step ev p) as [p1|] eqn:Hs; [|done].
  eapply IH; [|done]. by eapply step_Inv.
Qed.

Lemma reachable_Inv (wc cap : Z) (pol : FullPolicy) (p0 : Pool)
    (evs : list Event) (p : Pool) :
  New wc cap pol = inr p0 → run evs p0 = Some p → Inv p.
Proof. intros H0 Hr. eapply run_Inv; [|done]. by eapply New_Inv. Qed.

Lemma run_app (evs1 evs2 : list Event) (p : Pool) :
  run (evs1 ++ evs2) p = run evs1 p ≫= run evs2.
Proof.
  revert p. induction evs1 as [|ev evs1 IH]; intros p; simpl; [done|].
  destruct (step ev p); simpl; [apply IH|done].
Qed.

(** *** What single steps leave alone *)

Lemma Submit_not_Running (who : nat) (t : Task) (ready : option nat)
    (expired : bool) (p : Pool) :
  state p ≠ Running → Submit who t ready expired p = Failed PoolClosed.
Proof. unfold Submit. by destruct (state p). Qed.

Lemma step_not_Running (ev : Event) (p p' : Pool) :
  state p ≠ Running → step ev p = Some p' →
  state p' ≠ Running ∧ accepted p' = accepted p ∧
  discarded p' = discarded p.
Proof.
  intros Hs H. destruct ev as [who t ready expired|w|w|w|graceful|];
    simpl in H.
  - rewrite Submit_not_Running in H by done. simplify_eq/=; repeat split; (done || congruence).
  - unfold pop in H. repeat case_match; simplify_eq/=; repeat split; (done || congruence).
  - unfold finish in H. repeat case_match; simplify_eq/=; repeat split; (done || congruence).
  - unfold exit in H. repeat case_match; simplify_eq/=; repeat split; (done || congruence).
  - unfold begin_stop in H. destruct (state p) eqn:Hst; simplify_eq/=; repeat split; (done || congruence).
  - unfold complete_stop in H. repeat case_match; simplify_eq/=; repeat split; (done || congruence).
Qed.

Lemma run_not_Running (evs : list Event) (p p' : Pool) :
  state p ≠ Running → run evs p = Some p' →
  state p' ≠ Running ∧ accepted p' = accepted p ∧
  discarded p' = discarded p.
Proof.
  revert p. induction evs as [|ev evs IH]; intros p Hs H; simplify_eq/=;
    [done|].
  destruct (step ev p) as [p1|] eqn:H1; [|done].
  destruct (step_not_Running _ _ _ Hs H1) as (Hs1 & Ha1 & Hd1).
  destruct (IH _ Hs1 H) as (? & ? & ?). split; [done|]. split; congruence.
Qed.

Lemma step_discarded (ev : Event) (p p' : Pool) :
  is_immediate_stop ev = false → step ev p = Some p' →
  discarded p' = discarded p.
Proof.
  intros Hev H. destruct ev as [who t ready expired|w|w|w|graceful|];
    simpl in H.
  - unfold Submit, on_full in H. repeat case_match; simplify_eq/=; done.
  - unfold pop in H. repeat case_match; simplify_eq/=; done.
  - unfold finish in H. repeat case_match; simplify_eq/=; done.
  - unfold exit in H. repeat case_match; simplify_eq/=; done.
  - destruct graceful; [|done]. unfold begin_stop in H.
    destruct (state p); simplify_eq/=; done.
  - unfold complete_stop in H. repeat case_match; simplify_eq/=; done.
Qed.

Lemma run_discarded (evs : list Event) (p p' : Pool) :
  forallb (fun ev => negb (is_immediate_stop ev)) evs = true →
  run evs p = Some p' → discarded p' = discarded p.
Proof.
  revert p. induction evs as [|ev evs IH]; intros p Hevs H; simplify_eq/=;
    [done|].
  apply andb_prop in Hevs as [Hev Hevs]. apply negb_true_iff in Hev.
  destruct (step ev p) as [p1|] eqn:H1; [|done].
  rewrite (IH _ Hevs H). by eapply step_discarded.
Qed.

Lemma in_flight_length (ws : list Worker) : length (in_flight ws) ≤ length ws.
Proof.
  unfold in_flight. induction ws as [|a ws IH]; csimpl; [done|].
  destruct (executing a); csimpl; lia.
Qed.

Lemma in_flight_all_gone (ws : list Worker) :
  Forall (fun w => w = Gone) ws → in_flight ws = [].
Proof.
  unfold in_flight. induction 1 as [|a ws -> _ IH]; csimpl; done.
Qed.

Lemma step_Stopped (ev : Event) (p p' : Pool) :
  Inv p → state p = Stopped → step ev p = Some p' → p' = p.
Proof.
  intros HI Hs H. destruct (inv_stopped p HI Hs) as [Hi Hg].
  rewrite Forall_lookup in Hg.
  destruct ev as [who t ready expired|w|w|w|graceful|]; simpl in H.
  - rewrite Submit_not_Running in H by congruence. by simplify_eq.
  - unfold pop in H. rewrite Hi in H. by repeat case_match.
  - unfold finish in H. destruct (workers p !! w) as [x|] eqn:Hw; [|done].
    rewrite (Hg _ _ Hw) in H. done.
  - unfold exit in H. destruct (workers p !! w) as [x|] eqn:Hw; [|done].
    rewrite (Hg _ _ Hw) in H. done.
  - unfold begin_stop in H. rewrite Hs in H. by simplify_eq.
  - unfold complete_stop in H. rewrite Hs in H. done.
Qed.

(** *** Progress: draining and shutting down can always be completed *)

Lemma in_flight_nonempty (ws : list Worker) :
  in_flight ws ≠ [] → ∃ w t, ws !! w = Some (Executing t).
Proof.
  unfold in_flight. induction ws as [|a ws IH]; csimpl; [done|].
  destruct a as [|t|]; csimpl.
  - intros H. destruct (IH H) as (w & t & Hw). by exists (S w), t.
  - intros _. by exists 0, t.
  - intros H. destruct (IH H) as (w & t & Hw). by exists (S w), t.
Qed.

Lemma same_shutdown_refl (p : Pool) : same_shutdown p p.
Proof. by repeat split. Qed.

Lemma same_shutdown_trans (p1 p2 p3 : Pool) :
  same_shutdown p1 p2 → same_shutdown p2 p3 → same_shutdown p1 p3.
Proof. unfold same_shutdown. intros (?&?&?&?) (?&?&?&?). repeat split; congruence. Qed.

Lemma finish_enabled (p : Pool) (w : nat) (t : Task) :
  workers p !! w = Some (Executing t) →
  ∃ p', finish w p = Some p' ∧ items p' = items p ∧
        S (active p') = active p ∧ same_shutdown p p'.
Proof.
  intros Hw. unfold finish. rewrite Hw. eexists. split; [reflexivity|].
  unfold active. simpl. split; [done|]. split; [|by repeat split].
  by rewrite (in_flight_finish _ _ _ Hw).
Qed.

Lemma pop_enabled (p : Pool) (w : nat) (t : Task) (rest : list Task) :
  workers p !! w = Some Waiting → items p = t :: rest →
  ∃ p', pop w p = Some p' ∧ items p' = rest ∧
        active p' = S (active p) ∧ same_shutdown p p'.
Proof.
  intros Hw Hi. unfold pop. rewrite Hw, Hi. eexists. split; [reflexivity|].
  unfold active. simpl. split; [done|]. split; [|by repeat split].
  rewrite (in_flight_start _ _ _ Hw), length_app. simpl. lia.
Qed.

Lemma exit_enabled (p : Pool) (w : nat) :
  workers p !! w = Some Waiting → items p = [] → closed p = true →
  ∃ p', exit w p = Some p' ∧ items p' = [] ∧
        workers p' = <[w := Gone]> (workers p) ∧ same_shutdown p p'.
Proof.
  intros Hw Hi Hc. unfold exit. rewrite Hw, Hi, Hc. eexists.
  split; [reflexivity|]. simpl. by repeat split.
Qed.

Lemma drain_possible (p : Pool) :
  Inv p →
  ∃ evs p', forallb is_worker_step evs = true ∧ run evs p = Some p' ∧
            drained p' ∧ same_shutdown p p'.
Proof.
  remember (2 * length (items p) + active p) as n eqn:Hn.
  revert p Hn. induction n as [n IH] using lt_wf_ind. intros p Hn HI.
  destruct (in_flight (workers p)) as [|t0 fl] eqn:Hfl.
  - destruct (items p) as [|t rest] eqn:Hi.
    + exists [], p. repeat split; try done. unfold active. by rewrite Hfl.
    + assert (workers p !! 0 = Some Waiting) as Hw.
      { pose proof (inv_workers p HI). pose proof (inv_some_worker p HI).
        destruct (workers p) as [|x ws] eqn:Hws; [simpl in *; lia|].
        destruct x as [|t'|]; [done|by simplify_eq/=|].
        destruct (inv_gone p HI) as [? _]; [|congruence].
        rewrite Hws. apply list_elem_of_here. }
      destruct (pop_enabled p 0 t rest Hw Hi) as (p1 & Hp & Hi1 & Ha1 & Hs1).
      assert (Inv p1) as HI1 by (by eapply (step_Inv (EvPop 0))).
      destruct (IH (2 * length (items p1) + active p1)) with (p := p1)
        as (evs & p' & Hevs & Hrun & Hd & Hs'); [|done|done|].
      { rewrite Hn, Hi1, Ha1. simpl. lia. }
      exists (EvPop 0 :: evs), p'. simpl. rewrite Hp.
      repeat split; try done; try apply Hd.
      all: destruct Hs1 as (?&?&?&?), Hs' as (?&?&?&?); congruence.
  - destruct (in_flight_nonempty (workers p)) as (w & t & Hw);
      [by rewrite Hfl|].
    destruct (finish_enabled p w t Hw) as (p1 & Hp & Hi1 & Ha1 & Hs1).
    assert (Inv p1) as HI1 by (by eapply (step_Inv (EvDone w))).
    destruct (IH (2 * length (items p1) + active p1)) with (p := p1)
      as (evs & p' & Hevs & Hrun & Hd & Hs'); [|done|done|].
    { rewrite Hn, Hi1. lia. }
    exists (EvDone w :: evs), p'. simpl. rewrite Hp.
    repeat split; try done; try apply Hd.
    all: destruct Hs1 as (?&?&?&?), Hs' as (?&?&?&?); congruence.
Qed.

Lemma idle_exit (ws : list Worker) (w : nat) :
  ws !! w = Some Waiting → idle ws = S (idle (<[w := Gone]> ws)).
Proof.
  unfold idle. revert w. induction ws as [|a ws IH]; intros [|w] Hw;
    simpl in Hw; simplify_eq.
  - change (<[0 := Gone]> (Waiting :: ws)) with (Gone :: ws).
    rewrite !filter_cons. by repeat case_decide.
  - change (<[S w := Gone]> (a :: ws)) with (a :: <[w := Gone]> ws).
    rewrite !filter_cons. case_decide; simpl; by rewrite (IH w Hw).
Qed.

Lemma idle_none (ws : list Worker) :
  idle ws = 0 → in_flight ws = [] → Forall (fun w => w = Gone) ws.
Proof.
  unfold idle, in_flight. induction ws as [|a ws IH]; csimpl; [done|].
  rewrite filter_cons. destruct a as [|t|]; csimpl; try done.
  intros H1 H2. constructor; auto.
Qed.

Lemma idle_some (ws : list Worker) :
  idle ws ≠ 0 → ∃ w, ws !! w = Some Waiting.
Proof.
  unfold idle. induction ws as [|a ws IH]; csimpl; [done|].
  rewrite filter_cons. destruct (decide (a = Waiting)) as [->|].
  - intros _. by exists 0.
  - intros H. destruct (IH H) as [w Hw]. by exists (S w).
Qed.

Lemma exit_all_possible (n : nat) (p : Pool) :
  Inv p → idle (workers p) = n → drained p → closed p = true →
  ∃ evs p', forallb is_worker_step evs = true ∧ run evs p = Some p' ∧
            items p' = [] ∧ Forall (fun w => w = Gone) (workers p') ∧
            same_shutdown p p'.
Proof.
  revert p. induction n as [|n IH]; intros p HI Hn [Hi Ha] Hc.
  - exists [], p. repeat split; try done.
    apply idle_none; [done|]. by apply length_zero_iff_nil.
  - destruct (idle_some (workers p)) as [w Hw]; [lia|].
    destruct (exit_enabled p w Hw Hi Hc) as (p1 & Hp & Hi1 & Hw1 & Hs1).
    assert (Inv p1) as HI1 by (by eapply (step_Inv (EvExit w))).
    destruct (IH p1) as (evs & p' & Hevs & Hrun & Hi' & Hg & Hs');
      try done.
    { rewrite (idle_exit _ _ Hw) in Hn. rewrite Hw1. lia. }
    { split; [done|]. unfold active in *. rewrite Hw1.
      by rewrite (in_flight_exit _ _ Hw). }
    { destruct Hs1 as (?&?&?&?). congruence. }
    exists (EvExit w :: evs), p'. simpl. rewrite Hp.
    repeat split; try done.
    all: destruct Hs1 as (?&?&?&?), Hs' as (?&?&?&?); congruence.
Qed.

Lemma shutdown_possible (p : Pool) :
  Inv p → state p ≠ Running →
  ∃ evs p', run evs p = Some p' ∧ state p' = Stopped ∧
            accepted p' = accepted p ∧ discarded p' = discarded p.
Proof.
  intros HI Hs.
  destruct (drain_possible p HI) as (evs1 & p1 & _ & Hr1 & Hd1 & Hs1).
  assert (Inv p1) as HI1 by (by eapply run_Inv).
  destruct Hs1 as (Hst1 & Hc1 & Ha1 & Hdi1).
  assert (closed p1 = true) as Hcl1.
  { apply (inv_closed p1 HI1). congruence. }
  destruct (exit_all_possible _ p1 HI1 eq_refl Hd1 Hcl1)
    as (evs2 & p2 & _ & Hr2 & Hi2 & Hg2 & Hst2 & Hc2 & Ha2 & Hdi2).
  destruct (state p) eqn:Hstate; [done| |].
  - assert (complete_stop p2 =
            Some {| workerCount := workerCount p2; capacity := capacity p2;
                    policy := policy p2; state := Stopped;
                    items := items p2; closed := closed p2;
                    workers := workers p2; accepted := accepted p2;
                    started := started p2; finished := finished p2;
                    discarded := discarded p2; faults := faults p2 |})
      as Hcs.
    { unfold complete_stop. rewrite Hst2, Hst1, Hi2, Hc2, Hcl1.
      apply all_gone_Forall in Hg2. by rewrite Hg2. }
    eexists (evs1 ++ evs2 ++ [EvStopped]), _.
    rewrite run_app, Hr1. simpl. rewrite run_app, Hr2. simpl. rewrite Hcs.
    repeat split; simpl; congruence.
  - exists (evs1 ++ evs2), p2. rewrite run_app, Hr1. simpl.
    repeat split; congruence.
Qed.

Lemma step_config (ev : Event) (p p' : Pool) :
  step ev p = Some p' →
  workerCount p' = workerCount p ∧ capacity p' = capacity p.
Proof.
  intros H. destruct ev as [who t ready expired|w|w|w|graceful|];
    simpl in H.
  - unfold Submit, on_full in H. repeat case_match; by simplify_eq.
  - unfold pop in H. repeat case_match; by simplify_eq.
  - unfold finish in H. repeat case_match; by simplify_eq.
  - unfold exit in H. repeat case_match; by simplify_eq.
  - unfold begin_stop in H. repeat case_match; by simplify_eq.
  - unfold complete_stop in H. repeat case_match; by simplify_eq.
Qed.

Lemma run_config (evs : list Event) (p p' : Pool) :
  run evs p = Some p' →
  workerCount p' = workerCount p ∧ capacity p' = capacity p.
Proof.
  revert p. induction evs as [|ev evs IH]; intros p H; simplify_eq/=;
    [done|].
  destruct (step ev p) as [p1|] eqn:H1; [|done].
  destruct (step_config _ _ _ H1), (IH _ H). split; congruence.
Qed.

Lemma run_Stopped (evs : list Event) (p p' : Pool) :
  Inv p → state p = Stopped → run evs p = Some p' → p' = p.
Proof.
  intros HI Hs. induction evs as [|ev evs IH]; intros H; simplify_eq/=;
    [done|].
  destruct (step ev p) as [p1|] eqn:H1; [|done].
  rewrite (step_Stopped _ _ _ HI Hs H1) in H. auto.
Qed.

(** *** Submissions of a schedule and the accepted tasks *)




Lemma submitted_worker_steps (evs : list Event) :
  forallb is_worker_step evs = true → submitted evs = [].
Proof.
  unfold submitted. induction evs as [|ev evs IH]; simpl; [done|].
  intros H. apply andb_prop in H as [H1 H2]. rewrite (IH H2).
  by destruct ev.
Qed.

(** *** The regime in which a submission finds room *)




Lemma drained_all_run (p : Pool) :
  Inv p → discarded p = [] → drained p →
  started p = (accepted p).*2 ∧ finished p ≡ₚ (accepted p).*2.
Proof.
  intros HI Hd [Hi Ha].
  assert (started p = (accepted p).*2) as Hst.
  { rewrite (inv_fifo p HI), Hi, Hd. by rewrite !app_nil_r. }
  split; [done|]. rewrite <- Hst, (inv_exec p HI).
  apply length_zero_iff_nil in Ha. rewrite Ha. by rewrite app_nil_r.
Qed.

Lemma New_fields (wc cap : Z) (pol : FullPolicy) (p0 : Pool) :
  New wc cap pol = inr p0 →
  (1 ≤ wc)%Z ∧ (0 ≤ cap)%Z ∧ workerCount p0 = Z.to_nat wc ∧
  capacity p0 = Z.to_nat cap ∧ accepted p0 = [] ∧ discarded p0 = [].
Proof.
  unfold New. intros H. repeat case_decide; simplify_eq. simpl.
  repeat split; (done || lia).
Qed.




Lemma after_Stop (g : bool) (evs : list Event) (p1 p : Pool) :
  Inv p1 → run (EvStop g :: evs) p1 = Some p →
  Inv p ∧ state p ≠ Running ∧ accepted p = accepted p1 ∧
  discarded p = discarded (begin_stop g p1).
Proof.
  intros HI1 Hr. simpl in Hr.
  assert (Inv (begin_stop g p1)) as HI2 by (by eapply (step_Inv (EvStop g))).
  assert (state (begin_stop g p1) ≠ Running) as Hs.
  { unfold begin_stop. by destruct (state p1) eqn:E; simpl; rewrite ?E. }
  destruct (run_not_Running _ _ _ Hs Hr) as (Hs' & Ha & Hd).
  split; [by eapply run_Inv|]. split; [done|]. split; [|done].
  rewrite Ha. unfold begin_stop. by destruct (state p1).
Qed.

(** C4, as the claim states it, fails when the shutdown under way was
    started by an immediate stop: the later [Stop(graceful=true)] only
    observes that transition and returns [Stopped], yet the task accepted
    before it was discarded and never ran. *)
Lemma graceful_Stop_after_immediate_Stop :
  ∃ p0 p1 p,
    New 1 2 Block = inr p0 ∧
    run [EvSubmit 7 (sample_task 1 false) None false;
         EvStop false; EvExit 0; EvStopped] p0 = Some p1 ∧
    run [EvStop true] p1 = Some p ∧
    Stop_result false p = Some StopStopped ∧
    (accepted p1).*2 = [sample_task 1 false] ∧
    started p = [] ∧ finished p = [].
Proof.
  eexists _, _, _. split; [vm_compute; reflexivity|].
  split; [vm_compute; reflexivity|].
  split; [vm_compute; reflexivity|].
  repeat split.
Qed.

(** C4, amended.  A [Stop(graceful=true)] can always return successfully
    (the transition can be completed), and whenever it does, [Stats]
    reports nothing pending and nothing active.  If moreover no
    [Stop(graceful=false)] was called before it, then every task [Submit]
    accepted before the call has started and ended its execution; this
    covers the call that starts the shutdown and a further graceful call
    on a pool already draining. *)
Theorem graceful_Stop_runs_all_accepted (wc cap : Z) (pol : FullPolicy)
    (p0 : Pool) (evs1 : list Event) (p1 : Pool) (evs2 : list Event)
    (p : Pool) :
  New wc cap pol = inr p0 →
  run evs1 p0 = Some p1 →
  run (EvStop true :: evs2) p1 = Some p →
  (∃ evs3 p3, run evs3 p = Some p3 ∧
              Stop_result false p3 = Some StopStopped) ∧
  (∀ elapsed : bool,
     Stop_result elapsed p = Some StopStopped →
     Stats p = (0, 0, Z.to_nat wc) ∧
     (forallb (fun ev => negb (is_immediate_stop ev)) evs1 = true →
      started p = (accepted p1).*2 ∧
      finished p ≡ₚ (accepted p1).*2)).
Proof.
  intros H0 Hr1 Hr2.
  destruct (New_fields _ _ _ _ H0) as (_ & _ & Hw0 & _ & _ & Hd0).
  assert (Inv p1) as HI1 by (by eapply reachable_Inv).
  destruct (after_Stop _ _ _ _ HI1 Hr2) as (HI & Hs & Ha & Hd).
  split.
  - destruct (shutdown_possible p HI Hs) as (evs3 & p3 & Hr3 & Hs3 & _).
    exists evs3, p3. split; [done|]. unfold Stop_result. by rewrite Hs3.
  - intros elapsed Hres.
    assert (state p = Stopped) as Hst.
    { unfold Stop_result in Hres. destruct (state p), elapsed; by simplify_eq. }
    destruct (inv_stopped p HI Hst) as [Hi Hg].
    split.
    + unfold Stats, pending, active.
      rewrite Hi, (in_flight_all_gone _ Hg). simpl.
      destruct (run_config _ _ _ Hr1) as [Hw1 _].
      destruct (run_config _ _ _ Hr2) as [Hw2 _].
      rewrite Hw2. simpl.
      replace (workerCount (begin_stop true p1)) with (workerCount p1)
        by (unfold begin_stop; by destruct (state p1)).
      by rewrite Hw1, Hw0.
    + intros Hevs.
      assert (discarded p = []) as Hdis.
      { rewrite Hd.
        replace (discarded (begin_stop true p1)) with (discarded p1)
          by (unfold begin_stop; by destruct (state p1)).
        by rewrite (run_discarded _ _ _ Hevs Hr1). }
      destruct (drained_all_run p HI Hdis) as [H1 H2].
      { split; [done|]. unfold active.
        by rewrite (in_flight_all_gone _ Hg). }
      by rewrite Ha in H1, H2.
Qed.

Lemma graceful_Stop_runs_all_accepted_witness :
  started (after_run (EvStop true :: sample_shutdown)
             (after_run (sample_work ++ [EvStop true]) sample_pool))
    = [sample_task 1 true; sample_task 2 false; sample_task 3 false] ∧
  Stats (after_run (EvStop true :: sample_shutdown)
           (after_run (sample_work ++ [EvStop true]) sample_pool))
    = (0, 0, 2).
Proof.
  assert (New 2 1 Block = inr sample_pool) as H0 by (vm_compute; reflexivity).
  assert (run (sample_work ++ [EvStop true]) sample_pool
          = Some (after_run (sample_work ++ [EvStop true]) sample_pool))
    as Hr1 by (vm_compute; reflexivity).
  assert (run (EvStop true :: sample_shutdown)
            (after_run (sample_work ++ [EvStop true]) sample_pool)
          = Some (after_run (EvStop true :: sample_shutdown)
                    (after_run (sample_work ++ [EvStop true]) sample_pool)))
    as Hr2 by (vm_compute; reflexivity).
  destruct (graceful_Stop_runs_all_accepted 2 1 Block sample_pool
              (sample_work ++ [EvStop true]) _ sample_shutdown _ H0 Hr1 Hr2)
    as [_ H].
  destruct (H false) as (H3 & H1); [vm_compute; reflexivity|].
  destruct H1 as [H1 _]; [vm_compute; reflexivity|].
  split; [exact H1 | exact H3].
Defined.

(** C5.  In every state the pool reaches after [Stop(graceful=false)]
    has been called, [Submit] returns [PoolClosed] and leaves the pool as
    it is, whoever submits and whatever the schedule offers; no task is
    accepted after the stop, and whatever is ever started was accepted
    before it. *)
Theorem Submit_after_immediate_Stop (wc cap : Z) (pol : FullPolicy)
    (p0 : Pool) (evs1 : list Event) (p1 : Pool) (evs2 : list Event)
    (p : Pool) :
  New wc cap pol = inr p0 →
  run evs1 p0 = Some p1 →
  run (EvStop false :: evs2) p1 = Some p →
  (∀ (who : nat) (t : Task) (ready : option nat) (expired : bool),
     Submit who t ready expired p = Failed PoolClosed ∧
     step (EvSubmit who t ready expired) p = Some p) ∧
  accepted p = accepted p1 ∧
  (∀ t : Task, t ∈ started p → t ∈ (accepted p1).*2).
Proof.
  intros H0 Hr1 Hr2.
  assert (Inv p1) as HI1 by (by eapply reachable_Inv).
  destruct (after_Stop _ _ _ _ HI1 Hr2) as (HI & Hs & Ha & _).
  split; [|split; [done|]].
  - intros who t ready expired. simpl.
    by rewrite (Submit_not_Running who t ready expired p Hs).
  - intros t Ht. rewrite <- Ha, (inv_fifo p HI). set_solver.
Qed.

Lemma Submit_after_immediate_Stop_witness :
  Submit 9 (sample_task 4 false) (Some 0) false
    (after_run [EvStop false; EvExit 0]
       (after_run sample_work sample_pool)) = Failed PoolClosed.
Proof.
  assert (New 2 1 Block = inr sample_pool) as H0 by (vm_compute; reflexivity).
  assert (run sample_work sample_pool
          = Some (after_run sample_work sample_pool)) as Hr1
    by (vm_compute; reflexivity).
  assert (run [EvStop false; EvExit 0] (after_run sample_work sample_pool)
          = Some (after_run [EvStop false; EvExit 0]
                    (after_run sample_work sample_pool))) as Hr2
    by (vm_compute; reflexivity).
  destruct (Submit_after_immediate_Stop 2 1 Block sample_pool sample_work _
              [EvExit 0] _ H0 Hr1 Hr2) as (H & _ & _).
  exact (proj1 (H 9 (sample_task 4 false) (Some 0) false)).
Defined.

(** C6.  In every reachable pool the number of workers executing a task
    is at most [workerCount], the value given to [New].  Once the state
    is [Stopped] no worker can pop, no submission is taken, and no step
    of anyone changes the pool any more. *)
Theorem active_bounded_and_Stopped_final (wc cap : Z) (pol : FullPolicy)
    (p0 : Pool) (evs : list Event) (p : Pool) :
  New wc cap pol = inr p0 →
  run evs p0 = Some p →
  active p ≤ workerCount p ∧ workerCount p = Z.to_nat wc ∧
  (state p = Stopped →
     (∀ w : nat, pop w p = None) ∧
     (∀ (who : nat) (t : Task) (ready : option nat) (expired : bool),
        Submit who t ready expired p = Failed PoolClosed) ∧
     (∀ (evs' : list Event) (p' : Pool), run evs' p = Some p' → p' = p)).
Proof.
  intros H0 Hr.
  assert (Inv p) as HI by (by eapply reachable_Inv).
  split; [|split].
  - unfold active. rewrite <- (inv_workers p HI). apply in_flight_length.
  - destruct (run_config _ _ _ Hr) as [-> _].
    unfold New in H0. by repeat case_decide; simplify_eq.
  - intros Hs. split; [|split].
    + intros w. unfold pop. destruct (inv_stopped p HI Hs) as [-> _].
      by destruct (workers p !! w) as [[]|].
    + intros. apply Submit_not_Running. congruence.
    + intros evs' p'. by apply run_Stopped.
Qed.

Lemma active_bounded_and_Stopped_final_witness :
  active (after_run [EvSubmit 7 (sample_task 1 true) None false; EvPop 0]
            sample_pool) ≤ 2.
Proof.
  assert (New 2 1 Block = inr sample_pool) as H0 by (vm_compute; reflexivity).
  assert (run [EvSubmit 7 (sample_task 1 true) None false; EvPop 0]
            sample_pool
          = Some (after_run
                    [EvSubmit 7 (sample_task 1 true) None false; EvPop 0]
                    sample_pool)) as Hr
    by (vm_compute; reflexivity).
  exact (proj1 (active_bounded_and_Stopped_final 2 1 Block sample_pool _ _
                  H0 Hr)).
Defined.

(** C7.  Once [Stop] has been called, a further call (graceful or not)
    leaves the pool exactly as it finds it, so no second drain starts and
    the run goes on as if the call had not been made; the call sees the
    result of the transition already under way, which is [Stopped] once
    that transition has completed. *)
Theorem Stop_idempotent (wc cap : Z) (pol : FullPolicy) (p0 : Pool)
    (evs1 : list Event) (p1 : Pool) (g1 : bool) (evs2 : list Event)
    (p : Pool) (g2 : bool) :
  New wc cap pol = inr p0 →
  run evs1 p0 = Some p1 →
  run (EvStop g1 :: evs2) p1 = Some p →
  begin_stop g2 p = p ∧
  (∀ evs3 : list Event, run (EvStop g2 :: evs3) p = run evs3 p) ∧
  (∀ elapsed : bool,
     Stop_result elapsed (begin_stop g2 p) = Stop_result elapsed p) ∧
  (state p = Stopped → ∀ elapsed : bool,
     Stop_result elapsed p = Some StopStopped).
Proof.
  intros H0 Hr1 Hr2.
  assert (Inv p1) as HI1 by (by eapply reachable_Inv).
  destruct (after_Stop _ _ _ _ HI1 Hr2) as (HI & Hs & _ & _).
  assert (begin_stop g2 p = p) as Hb.
  { unfold begin_stop. by destruct (state p). }
  split; [done|]. split; [|split].
  - intros evs3. simpl. by rewrite Hb.
  - intros elapsed. by rewrite Hb.
  - intros Hst elapsed. unfold Stop_result. by rewrite Hst.
Qed.

Lemma Stop_idempotent_witness :
  begin_stop false
    (after_run [EvStop true; EvExit 0] (after_run sample_work sample_pool))
  = after_run [EvStop true; EvExit 0] (after_run sample_work sample_pool).
Proof.
  assert (New 2 1 Block = inr sample_pool) as H0 by (vm_compute; reflexivity).
  assert (run sample_work sample_pool
          = Some (after_run sample_work sample_pool)) as Hr1
    by (vm_compute; reflexivity).
  assert (run [EvStop true; EvExit 0] (after_run sample_work sample_pool)
          = Some (after_run [EvStop true; EvExit 0]
                    (after_run sample_work sample_pool))) as Hr2
    by (vm_compute; reflexivity).
  exact (proj1 (Stop_idempotent 2 1 Block sample_pool sample_work _ true
                  [EvExit 0] _ false H0 Hr1 Hr2)).
Defined.

End PoolFacts.
